(** * CrosGen: the crossword layout engine of [src/utils.ts]

    A shallow embedding of [calculateGrid], [validatePlacement] and
    [generateLayout] (with its local helpers [canPlace] and
    [placeWordInMap]), followed by the properties of the grid model, the
    placement validators and the auto-layout engine.

    The repository holds [generateLayout] twice. [src/utils.ts], which
    [App.tsx] imports, is embedded under the names of the source. The
    other copy (src/components/Grid.tsx, lines 380-559) differs in the
    validator, which takes a flag [strictGap], and in the search for a
    placement, which keeps the closest accepted crossing; it is embedded in
    the module [Later], and everything the two copies share is defined
    once.

    Modelling conventions.
    - A TypeScript [number] that holds a row, a column or a grid dimension
      is an integer of [Z]; [Math.floor (a / 2)] is [a / 2] on [Z].
    - A word is a [string]; the loop [for (i = 0; i < w.length; i++)] that
      reads [w[i]] runs over [letters w], the list of pairs [(i, w[i])].
    - [grid[r][c]] is a list of rows of cells, updated in place with
      [alter]; every such update in the source is guarded by a bounds test,
      which is kept.
    - [gridMap], a [Map<string,string>] keyed by the text [r,c], is a
      finite map keyed by the pair [(r, c)].
    - The [PlacedWord] objects handed to [calculateGrid] are shared with the
      caller and written by it, so they live in a store of objects and the
      array holds references. *)

From Stdlib Require Import ZArith Ascii String List Sorted Permutation Lia.
From stdpp Require Import base tactics option list sorting gmap strings.

Local Open Scope Z_scope.

(** ** Data model ([types.ts]) *)

Inductive Orientation := across | down.

#[global] Instance Orientation_eq_dec : EqDecision Orientation.
Proof. solve_decision. Defined.

Record WordData := mkWordData {
  id : string;
  word : string;
  clue : string
}.

(** [PlacedWord extends WordData]; [number] is the optional clue number. *)
Record PlacedWord := mkPlacedWord {
  data :> WordData;
  row : Z;
  col : Z;
  orientation : Orientation;
  number : option Z
}.

Record GridCellData := mkCell {
  cell_row : Z;
  cell_col : Z;
  char : option ascii;
  clueNumber : option Z;
  wordIds : list string;
  isValid : bool;
  isError : bool
}.

Record ClueGroup := mkClue {
  cg_number : Z;
  cg_clue : string;
  cg_word : string;
  cg_orientation : Orientation
}.

Abbreviation Grid := (list (list GridCellData)).

(** [dr] and [dc]: the unit step of an orientation. *)
Definition dr (o : Orientation) : Z := if decide (o = down) then 1 else 0.
Definition dc (o : Orientation) : Z := if decide (o = across) then 1 else 0.

(** The pairs [(i, w[i])] for [0 <= i < w.length]. *)
Definition letters (w : string) : list (nat * ascii) :=
  imap (fun i ch => (i, ch)) (list_ascii_of_string w).

Definition wlen (w : string) : Z := Z.of_nat (String.length w).

(** ** Grid model: [createEmptyGrid] and [calculateGrid] *)

Definition emptyCell (r c : Z) : GridCellData :=
  mkCell r c None None [] true false.

Definition createEmptyGrid (rows cols : Z) : Grid :=
  (fun r => (fun c => emptyCell r c) <$> seqZ 0 cols) <$> seqZ 0 rows.

(** [r >= 0 && r < rows && c >= 0 && c < cols] *)
Definition inGrid (rows cols r c : Z) : bool :=
  (0 <=? r) && (r <? rows) && (0 <=? c) && (c <? cols).

(** In-place update of [grid[r][c]]. *)
Definition updCell (f : GridCellData -> GridCellData) (r c : Z) (g : Grid) : Grid :=
  alter (alter f (Z.to_nat c)) (Z.to_nat r) g.

Definition getCell (g : Grid) (r c : Z) : option GridCellData :=
  if (0 <=? r) && (0 <=? c) then g !! Z.to_nat r ≫= (fun rw => rw !! Z.to_nat c)
  else None.

(** Lines 41-46: flag a collision, then overwrite the letter and record
    the word. *)
Definition writeLetter (wid : string) (ch : ascii) (cell : GridCellData) : GridCellData :=
  mkCell (cell_row cell) (cell_col cell)
         (Some ch)
         (clueNumber cell)
         (wordIds cell ++ [wid])
         (isValid cell)
         (match char cell with
          | Some e => if decide (e = ch) then isError cell else true
          | None => isError cell
          end).

(** One iteration of the letter loop of a placed word. *)
Definition placeLetter (rows cols : Z) (pw : PlacedWord) (g : Grid) (ic : nat * ascii) : Grid :=
  let r := row pw + Z.of_nat ic.1 * dr (orientation pw) in
  let c := col pw + Z.of_nat ic.1 * dc (orientation pw) in
  if inGrid rows cols r c then updCell (writeLetter (id pw) ic.2) r c g else g.

Definition placeLetters (rows cols : Z) (g : Grid) (pw : PlacedWord) : Grid :=
  foldl (placeLetter rows cols pw) g (letters (word pw)).

(** The store of [PlacedWord] objects; an array of placements is a list of
    references into it, so one object may be listed more than once. *)
Definition loc := nat.
Definition Store := loc -> PlacedWord.

Definition setNumber (n : Z) (pw : PlacedWord) : PlacedWord :=
  mkPlacedWord (data pw) (row pw) (col pw) (orientation pw) (Some n).

Definition storeSet (s : Store) (l : loc) (pw : PlacedWord) : Store :=
  fun l' => if decide (l' = l) then pw else s l'.

Record NumState := mkNumState {
  ns_grid : Grid;
  ns_clues : list ClueGroup;
  ns_store : Store;
  ns_next : Z
}.

Definition startsAt (s : Store) (r c : Z) (l : loc) : bool :=
  bool_decide (row (s l) = r) && bool_decide (col (s l) = c).

Definition setClueNumber (n : Z) (cell : GridCellData) : GridCellData :=
  mkCell (cell_row cell) (cell_col cell) (char cell) (Some n)
         (wordIds cell) (isValid cell) (isError cell).

Definition clueOf (n : Z) (pw : PlacedWord) : ClueGroup :=
  mkClue n (clue pw) (word pw) (orientation pw).

(** The body of the numbering scan at cell [(r, c)] (lines 59-77). *)
Definition numberCell (refs : list loc) (st : NumState) (rc : Z * Z) : NumState :=
  let wordsStartingHere := List.filter (startsAt (ns_store st) rc.1 rc.2) refs in
  match wordsStartingHere with
  | [] => st
  | _ :: _ =>
      let n := ns_next st in
      mkNumState
        (updCell (setClueNumber n) rc.1 rc.2 (ns_grid st))
        (ns_clues st ++ map (fun l => clueOf n (ns_store st l)) wordsStartingHere)
        (foldl (fun s l => storeSet s l (setNumber n (s l))) (ns_store st) wordsStartingHere)
        (n + 1)
  end.

(** The cells in row-major scan order. *)
Definition scanCells (rows cols : Z) : list (Z * Z) :=
  r ← seqZ 0 rows; (fun c => (r, c)) <$> seqZ 0 cols.

(** [clues.sort((a, b) => a.number - b.number)]: a stable sort by number. *)
Fixpoint insertClue (x : ClueGroup) (l : list ClueGroup) : list ClueGroup :=
  match l with
  | [] => [x]
  | y :: l' => if cg_number x <=? cg_number y then x :: l else y :: insertClue x l'
  end.

Definition sortClues (l : list ClueGroup) : list ClueGroup :=
  foldr insertClue [] l.

Record GridResult := mkGridResult {
  grid : Grid;
  clues : list ClueGroup;
  store_after : Store
}.

Definition calculateGrid (s : Store) (placedWords : list loc) (rows cols : Z) : GridResult :=
  let g0 := createEmptyGrid rows cols in
  let g1 := foldl (placeLetters rows cols) g0 (s <$> placedWords) in
  let st := foldl (numberCell placedWords) (mkNumState g1 [] s 1) (scanCells rows cols) in
  mkGridResult (ns_grid st) (sortClues (ns_clues st)) (ns_store st).

(** ** Placement validators *)

(** The collision loop of [validatePlacement] (lines 106-115). Reading
    [grid[r][c].char] where the grid has no such cell throws; that is
    [None]. *)
Fixpoint collisionCheck (g : Grid) (row col : Z) (o : Orientation)
    (l : list (nat * ascii)) : option bool :=
  match l with
  | [] => Some true
  | ic :: l' =>
      match getCell g (row + Z.of_nat ic.1 * dr o) (col + Z.of_nat ic.1 * dc o) with
      | None => None
      | Some cell =>
          match char cell with
          | Some e => if decide (e = ic.2) then collisionCheck g row col o l' else Some false
          | None => collisionCheck g row col o l'
          end
      end
  end.

(** The interactive validator. *)
Definition validatePlacement (g : Grid) (w : string) (row col : Z) (o : Orientation)
    (rows cols : Z) : option bool :=
  if (row <? 0) || (col <? 0) then Some false
  else if row + (wlen w - 1) * dr o >=? rows then Some false
  else if col + (wlen w - 1) * dc o >=? cols then Some false
  else collisionCheck g row col o (letters w).

(** [gridMap] and its two readers. *)
Abbreviation GridMap := (gmap (Z * Z) ascii).

Definition getChar (gm : GridMap) (r c : Z) : option ascii := gm !! (r, c).

Definition isOccupied (gm : GridMap) (r c : Z) : bool :=
  match gm !! (r, c) with Some _ => true | None => false end.

Definition diags : list (Z * Z) := [(-1, -1); (-1, 1); (1, -1); (1, 1)].

(** The adjacency checks on a cell the word would newly write
    (lines 152-179). *)
Definition adjacencyOk (gm : GridMap) (o : Orientation) (r c : Z) : bool :=
  let pDr := dc o in
  let pDc := dr o in
  if isOccupied gm (r + pDr) (c + pDc) || isOccupied gm (r - pDr) (c - pDc) then false
  else if isOccupied gm (r + 2 * pDr) (c + 2 * pDc) || isOccupied gm (r - 2 * pDr) (c - 2 * pDc)
  then false
  else forallb (fun d : Z * Z =>
                  if isOccupied gm (r + d.1) (c + d.2)
                  then isOccupied gm (r + d.1) c || isOccupied gm r (c + d.2)
                  else true) diags.

(** One iteration of the letter loop of [canPlace]: [false] is the early
    [return false]. *)
Definition letterOk (gm : GridMap) (row col : Z) (o : Orientation) (ic : nat * ascii) : bool :=
  let r := row + Z.of_nat ic.1 * dr o in
  let c := col + Z.of_nat ic.1 * dc o in
  match getChar gm r c with
  | Some existing => bool_decide (existing = ic.2)
  | None => adjacencyOk gm o r c
  end.

(** The auto-layout validator, the closure [canPlace] of [generateLayout]
    (lines 133-187) with the variables it captures made parameters. *)
Definition canPlace (gm : GridMap) (rows cols : Z) (w : string) (row col : Z)
    (o : Orientation) : bool :=
  if (row <? 0) || (col <? 0) then false
  else if bool_decide (o = across) && (col + wlen w >? cols) then false
  else if bool_decide (o = down) && (row + wlen w >? rows) then false
  else if negb (forallb (letterOk gm row col o) (letters w)) then false
  else if isOccupied gm (row - dr o) (col - dc o) then false
  else if isOccupied gm (row + wlen w * dr o) (col + wlen w * dc o) then false
  else true.

(** ** Auto-layout engine: [generateLayout] *)

Record LayoutState := mkLayoutState {
  gridMap : GridMap;
  placed : list PlacedWord
}.

Definition placeWordInMap (st : LayoutState) (pw : PlacedWord) : LayoutState :=
  mkLayoutState
    (foldl (fun gm (ic : nat * ascii) =>
              <[(row pw + Z.of_nat ic.1 * dr (orientation pw),
                 col pw + Z.of_nat ic.1 * dc (orientation pw)) := ic.2]> gm)
           (gridMap st) (letters (word pw)))
    (placed st ++ [pw]).

(** [words.sort((a, b) => b.word.length - a.word.length)] on a copy: a
    stable sort by descending length. *)
Fixpoint insertWord (x : WordData) (l : list WordData) : list WordData :=
  match l with
  | [] => [x]
  | y :: l' =>
      if (String.length (word y) <=? String.length (word x))%nat then x :: l
      else y :: insertWord x l'
  end.

Definition sortWords (l : list WordData) : list WordData := foldr insertWord [] l.

(** A loop that leaves at the first hit: the nested [for] loops of the
    search, each followed by [if (bestPlacement) break]. *)
Fixpoint firstSome {A B : Type} (f : A -> option B) (l : list A) : option B :=
  match l with
  | [] => None
  | x :: l' => match f x with Some y => Some y | None => firstSome f l' end
  end.

Definition flip (o : Orientation) : Orientation :=
  if decide (o = across) then down else across.

(** The crossing of letter [j] of [w] with letter [k] of the placed word
    [pw] (lines 232-240): where [w] would start, and its orientation. *)
Definition crossingAt (pw : PlacedWord) (j k : nat) : Z * Z * Orientation :=
  let intersectR := row pw + Z.of_nat k * dr (orientation pw) in
  let intersectC := col pw + Z.of_nat k * dc (orientation pw) in
  let newOrientation := flip (orientation pw) in
  (intersectR - Z.of_nat j * dr newOrientation,
   intersectC - Z.of_nat j * dc newOrientation,
   newOrientation).

Definition tryCrossing (gm : GridMap) (rows cols : Z) (w : WordData) (pw : PlacedWord)
    (jc kc : nat * ascii) : option PlacedWord :=
  if decide (kc.2 = jc.2) then
    let '(startR, startC, newOrientation) := crossingAt pw jc.1 kc.1 in
    if canPlace gm rows cols (word w) startR startC newOrientation
    then Some (mkPlacedWord w startR startC newOrientation None)
    else None
  else None.

(** The search for one unplaced word (lines 218-251). *)
Definition findPlacement (rows cols : Z) (st : LayoutState) (w : WordData) : option PlacedWord :=
  firstSome (fun pw =>
    firstSome (fun jc =>
      firstSome (tryCrossing (gridMap st) rows cols w pw jc) (letters (word pw)))
      (letters (word w)))
    (placed st).

(** One run of the [for] loop over [unplaced] (lines 216-259): the new
    state, what is left of [unplaced], and [changed]. A placed word is
    spliced out and the index stays, so the scan goes on with the next
    word. *)
Fixpoint scanUnplaced (rows cols : Z) (st : LayoutState) (unplaced : list WordData)
    : LayoutState * list WordData * bool :=
  match unplaced with
  | [] => (st, [], false)
  | w :: rest =>
      match findPlacement rows cols st w with
      | Some bestPlacement =>
          let '(st', remaining, _) := scanUnplaced rows cols (placeWordInMap st bestPlacement) rest in
          (st', remaining, true)
      | None =>
          let '(st', remaining, changed) := scanUnplaced rows cols st rest in
          (st', w :: remaining, changed)
      end
  end.

(** [while (changed && unplaced.length > 0)]; [None] when the fuel runs
    out before the loop ends. *)
Fixpoint retryLoop (fuel : nat) (rows cols : Z) (st : LayoutState)
    (unplaced : list WordData) (changed : bool) : option LayoutState :=
  if changed && bool_decide (0 < length unplaced)%nat then
    match fuel with
    | O => None
    | S fuel' =>
        let '(st', remaining, changed') := scanUnplaced rows cols st unplaced in
        retryLoop fuel' rows cols st' remaining changed'
    end
  else Some st.

Definition emptyLayout : LayoutState := mkLayoutState ∅ [].

Definition generateLayoutFuel (fuel : nat) (words : list WordData) (rows cols : Z)
    : option (list PlacedWord) :=
  match sortWords words with
  | [] => Some []
  | firstWord :: unplaced =>
      let fr := rows / 2 in
      let fc := (cols - wlen (word firstWord)) / 2 in
      let st :=
        if 0 <=? fc
        then placeWordInMap emptyLayout (mkPlacedWord firstWord fr fc across None)
        else placeWordInMap emptyLayout (mkPlacedWord firstWord 0 0 across None) in
      placed <$> retryLoop fuel rows cols st unplaced true
  end.

(** The loop body removes a word whenever it sets [changed], so as many
    rounds as there are words are enough (see [retryLoop_total]). *)
Definition generateLayout (words : list WordData) (rows cols : Z) : option (list PlacedWord) :=
  generateLayoutFuel (length words) words rows cols.

(** ** The callers: [App.tsx] and [components/Grid.tsx]

    The state [placedWords] of [App] is an array of placements; its
    handlers build a new array from the previous one. *)

(** [handlePlaceWord] (App.tsx, lines 187-193): the new placement is a
    fresh object without a number. *)
Definition handlePlaceWord (prev : list PlacedWord) (w : WordData) (row col : Z)
    (orient : Orientation) : list PlacedWord :=
  prev ++ [mkPlacedWord w row col orient None].

(** [handleRemoveWord] (App.tsx, lines 195-197). *)
Definition handleRemoveWord (prev : list PlacedWord) (wordId : string) : list PlacedWord :=
  List.filter (fun w : PlacedWord => negb (bool_decide (id w = wordId))) prev.

(** [handleRotateWord] (App.tsx, lines 199-206): the new orientation is
    read off the first placement with the identity, and given to every
    placement with it. *)
Definition handleRotateWord (prev : list PlacedWord) (wordId : string) : list PlacedWord :=
  match List.find (fun w : PlacedWord => bool_decide (id w = wordId)) prev with
  | None => prev
  | Some found =>
      let newOrientation := if decide (orientation found = across) then down else across in
      map (fun w : PlacedWord =>
             if bool_decide (id w = wordId)
             then mkPlacedWord (data w) (row w) (col w) newOrientation (number w)
             else w) prev
  end.

(** The re-linking of the placements to a re-parsed word list, done alike
    in [handleInputChange] and [handleFormatText] (App.tsx, lines 115-123
    and 157-164): [{ ...existing, id: nw.id }] for the first placement with
    the word and clue of [nw]. *)
Definition remapPlacedWords (placedWords : list PlacedWord) (newWords : list WordData)
    : list PlacedWord :=
  omap (fun nw : WordData =>
          match List.find (fun pw : PlacedWord =>
                             bool_decide (word pw = word nw) && bool_decide (clue pw = clue nw))
                          placedWords with
          | Some existing =>
              Some (mkPlacedWord (mkWordData (id nw) (word existing) (clue existing))
                                 (row existing) (col existing) (orientation existing)
                                 (number existing))
          | None => None
          end) newWords.

(** The branch of [handleCellClick] taken while a word is active
    (Grid.tsx, lines 36-39): the word is placed where the validator allows
    it; [None] is the exception of the validator. *)
Definition clickWithActiveWord (g : Grid) (activeWord : WordData) (r c : Z) (o : Orientation)
    (rows cols : Z) (prev : list PlacedWord) : option (list PlacedWord) :=
  match validatePlacement g (word activeWord) r c o rows cols with
  | None => None
  | Some true => Some (handlePlaceWord prev activeWord r c o)
  | Some false => Some prev
  end.


(** The hover preview of [getCellStyle] (Grid.tsx, lines 73-81): whether
    cell [(r, c)] belongs to the preview of word [w] hovered at [hover],
    and (lines 160-165) the index of the letter shown there. *)
Definition isPhantom (hover : Z * Z) (o : Orientation) (w : string) (r c : Z) : bool :=
  let index := if decide (o = down) then r - hover.1 else c - hover.2 in
  let otherAxisMatch :=
    if decide (o = down) then bool_decide (c = hover.2) else bool_decide (r = hover.1) in
  otherAxisMatch && (0 <=? index) && (index <? wlen w).

Definition phantomIndex (hover : Z * Z) (o : Orientation) (r c : Z) : Z :=
  (r - hover.1) * dr o + (c - hover.2) * dc o.

(** What [handleRotateWord] maps over the list. *)
Definition setOrientation (wordId : string) (o : Orientation) (w : PlacedWord) : PlacedWord :=
  if bool_decide (id w = wordId)
  then mkPlacedWord (data w) (row w) (col w) o (number w) else w.

(** The board of the state: [calculateGrid] run on an array of distinct
    objects that hold the placements [ps] (App.tsx, line 95). *)
Definition storeOf (ps : list PlacedWord) : Store :=
  fun l => nth l ps (mkPlacedWord (mkWordData "" "" "") 0 0 across None).

Definition boardOf (ps : list PlacedWord) (rows cols : Z) : GridResult :=
  calculateGrid (storeOf ps) (seq 0 (length ps)) rows cols.

(** The layout state that committing the placements [ps] in turn builds. *)
Definition replay (ps : list PlacedWord) : LayoutState :=
  foldl placeWordInMap emptyLayout ps.

(** ** The candidates of the search, and the later copy of the layout

    [candidates] lists the crossings in the order in which the three nested
    loops of the search reach them, in either copy. After it come the
    validator and the search of the copy in src/components/Grid.tsx, and
    the two selection rules of the specification, 4.3, stated for the copy
    in src/utils.ts. *)

Definition Candidate : Type := Z * Z * Orientation.

Definition candidates (st : LayoutState) (w : WordData) : list Candidate :=
  pw ← placed st;
  jc ← letters (word w);
  kc ← letters (word pw);
  if decide (kc.2 = jc.2) then [crossingAt pw jc.1 kc.1] else [].

Definition accepts (gm : GridMap) (rows cols : Z) (w : WordData) (c : Candidate) : bool :=
  canPlace gm rows cols (word w) c.1.1 c.1.2 c.2.

Definition toPlacement (w : WordData) (c : Candidate) : PlacedWord :=
  mkPlacedWord w c.1.1 c.1.2 c.2 None.

(** The validator [canPlace] of the later copy (src/components/Grid.tsx,
    lines 393-451), with its fifth parameter [strictGap]: the two-step
    test is made only under the flag (lines 422-424); every other line is
    that of the copy in src/utils.ts. This is the validator of the
    specification, 4.2. *)
Definition adjacencyOkGap (strictGap : bool) (gm : GridMap) (o : Orientation) (r c : Z) : bool :=
  let pDr := dc o in
  let pDc := dr o in
  if isOccupied gm (r + pDr) (c + pDc) || isOccupied gm (r - pDr) (c - pDc) then false
  else if strictGap &&
          (isOccupied gm (r + 2 * pDr) (c + 2 * pDc) || isOccupied gm (r - 2 * pDr) (c - 2 * pDc))
  then false
  else forallb (fun d : Z * Z =>
                  if isOccupied gm (r + d.1) (c + d.2)
                  then isOccupied gm (r + d.1) c || isOccupied gm r (c + d.2)
                  else true) diags.

Definition letterOkGap (strictGap : bool) (gm : GridMap) (row col : Z) (o : Orientation)
    (ic : nat * ascii) : bool :=
  let r := row + Z.of_nat ic.1 * dr o in
  let c := col + Z.of_nat ic.1 * dc o in
  match getChar gm r c with
  | Some existing => bool_decide (existing = ic.2)
  | None => adjacencyOkGap strictGap gm o r c
  end.

Definition canPlaceGap (strictGap : bool) (gm : GridMap) (rows cols : Z) (w : string)
    (row col : Z) (o : Orientation) : bool :=
  if (row <? 0) || (col <? 0) then false
  else if bool_decide (o = across) && (col + wlen w >? cols) then false
  else if bool_decide (o = down) && (row + wlen w >? rows) then false
  else if negb (forallb (letterOkGap strictGap gm row col o) (letters w)) then false
  else if isOccupied gm (row - dr o) (col - dc o) then false
  else if isOccupied gm (row + wlen w * dr o) (col + wlen w * dc o) then false
  else true.

(** Four times the [dist] of the later copy (src/components/Grid.tsx,
    lines 478-479 and 524-527): the squared distance between the centre of
    the placement, [(startR + len/2 * nDr, startC + len/2 * nDc)], and the
    centre of the grid, [(rows/2, cols/2)]. The halves are cleared so that
    it stays in [Z]; the comparison [dist < bestMove.dist] is the same on
    the fourfold values. *)
Definition dist4 (rows cols : Z) (w : WordData) (c : Candidate) : Z :=
  (2 * c.1.1 + wlen (word w) * dr c.2 - rows) ^ 2
  + (2 * c.1.2 + wlen (word w) * dc c.2 - cols) ^ 2.

(** "Among all valid candidates, select the one whose distance to the
    centre is smallest", asked of the search of src/utils.ts. *)
Definition commitsClosest (rows cols : Z) (st : LayoutState) (w : WordData) : Prop :=
  forall p, findPlacement rows cols st w = Some p ->
  forall c, c ∈ candidates st w -> accepts (gridMap st) rows cols w c = true ->
  dist4 rows cols w (row p, col p, orientation p) <= dist4 rows cols w c.

(** "Only if no candidate succeeds under strict mode, retry the same sweep
    under relaxed mode", asked of the search of src/utils.ts. *)
Definition retriesRelaxed (rows cols : Z) (st : LayoutState) (w : WordData) : Prop :=
  (forall c, c ∈ candidates st w ->
     canPlaceGap true (gridMap st) rows cols (word w) c.1.1 c.1.2 c.2 = false) ->
  forall c, c ∈ candidates st w ->
  canPlaceGap false (gridMap st) rows cols (word w) c.1.1 c.1.2 c.2 = true ->
  exists p, findPlacement rows cols st w = Some p.

(** The later copy of [generateLayout] (src/components/Grid.tsx, lines
    380-559). Sorting, the first word, [placeWordInMap] and the two loops
    around the search are those of src/utils.ts. *)
Module Later.

Definition canPlace (gm : GridMap) (rows cols : Z) (w : string) (row col : Z)
    (o : Orientation) (strictGap : bool) : bool :=
  canPlaceGap strictGap gm rows cols w row col o.

(** [bestMove]; [dist] holds four times the distance of the source. *)
Record Move := mkMove {
  r : Z;
  c : Z;
  o : Orientation;
  dist : Z
}.

(** The body of the innermost loop for letter [j] of [w] and letter [k] of
    the placed word (lines 508-538). *)
Definition tryCrossing (gm : GridMap) (rows cols : Z) (w : WordData) (pw : PlacedWord)
    (useStrictGap : bool) (jc : nat * ascii) (bestMove : option Move) (kc : nat * ascii)
    : option Move :=
  if decide (kc.2 = jc.2) then
    let '(startR, startC, newOrientation) := crossingAt pw jc.1 kc.1 in
    if canPlace gm rows cols (word w) startR startC newOrientation useStrictGap then
      let d := dist4 rows cols w (startR, startC, newOrientation) in
      match bestMove with
      | Some best =>
          if d <? dist best then Some (mkMove startR startC newOrientation d) else bestMove
      | None => Some (mkMove startR startC newOrientation d)
      end
    else bestMove
  else bestMove.

(** The three nested loops under one strategy (lines 499-541). *)
Definition sweep (rows cols : Z) (st : LayoutState) (w : WordData) (useStrictGap : bool)
    (bestMove : option Move) : option Move :=
  foldl (fun best pw =>
    foldl (fun best jc =>
      foldl (tryCrossing (gridMap st) rows cols w pw useStrictGap jc) best
            (letters (word pw)))
      best (letters (word w)))
    bestMove (placed st).

(** [for (const useStrictGap of [true, false])], left at its head once a
    move is found (lines 491-542). *)
Definition findBestMove (rows cols : Z) (st : LayoutState) (w : WordData) : option Move :=
  foldl (fun bestMove useStrictGap =>
           match bestMove with
           | Some _ => bestMove
           | None => sweep rows cols st w useStrictGap bestMove
           end)
        None [true; false].

Definition placementOf (w : WordData) (bestMove : Move) : PlacedWord :=
  mkPlacedWord w (r bestMove) (c bestMove) (o bestMove) None.

(** One run of the [for] loop over [unplaced] (lines 483-555). *)
Fixpoint scanUnplaced (rows cols : Z) (st : LayoutState) (unplaced : list WordData)
    : LayoutState * list WordData * bool :=
  match unplaced with
  | [] => (st, [], false)
  | w :: rest =>
      match findBestMove rows cols st w with
      | Some bestMove =>
          let '(st', remaining, _) :=
            scanUnplaced rows cols (placeWordInMap st (placementOf w bestMove)) rest in
          (st', remaining, true)
      | None =>
          let '(st', remaining, changed) := scanUnplaced rows cols st rest in
          (st', w :: remaining, changed)
      end
  end.

(** [while (changed && unplaced.length > 0)] (line 481). *)
Fixpoint retryLoop (fuel : nat) (rows cols : Z) (st : LayoutState)
    (unplaced : list WordData) (changed : bool) : option LayoutState :=
  if changed && bool_decide (0 < length unplaced)%nat then
    match fuel with
    | O => None
    | S fuel' =>
        let '(st', remaining, changed') := scanUnplaced rows cols st unplaced in
        retryLoop fuel' rows cols st' remaining changed'
    end
  else Some st.

Definition generateLayout (words : list WordData) (rows cols : Z) : option (list PlacedWord) :=
  match sortWords words with
  | [] => Some []
  | firstWord :: unplaced =>
      let fr := rows / 2 in
      let fc := (cols - wlen (word firstWord)) / 2 in
      let st :=
        if 0 <=? fc
        then placeWordInMap emptyLayout (mkPlacedWord firstWord fr fc across None)
        else placeWordInMap emptyLayout (mkPlacedWord firstWord 0 0 across None) in
      placed <$> retryLoop (length words) rows cols st unplaced true
  end.

End Later.

(** A candidate under either strictness, a move as a candidate, and what
    one candidate does to [bestMove]. *)
Definition acceptsGap (strictGap : bool) (gm : GridMap) (rows cols : Z) (w : WordData)
    (c : Candidate) : bool :=
  Later.canPlace gm rows cols (word w) c.1.1 c.1.2 c.2 strictGap.

Definition moveCandidate (m : Later.Move) : Candidate :=
  (Later.r m, Later.c m, Later.o m).

Definition consider (strictGap : bool) (gm : GridMap) (rows cols : Z) (w : WordData)
    (bestMove : option Later.Move) (c : Candidate) : option Later.Move :=
  if acceptsGap strictGap gm rows cols w c then
    match bestMove with
    | Some best =>
        if dist4 rows cols w c <? Later.dist best
        then Some (Later.mkMove c.1.1 c.1.2 c.2 (dist4 rows cols w c)) else bestMove
    | None => Some (Later.mkMove c.1.1 c.1.2 c.2 (dist4 rows cols w c))
    end
  else bestMove.

(** [m] is, among the candidates in [l] accepted under [strictGap], one at
    the least distance to the centre of the grid, and the first such in
    the order of [l]. *)
Definition closestIn (strictGap : bool) (gm : GridMap) (rows cols : Z) (w : WordData)
    (l : list Candidate) (m : Later.Move) : Prop :=
  exists before after,
    l = before ++ moveCandidate m :: after /\
    Later.dist m = dist4 rows cols w (moveCandidate m) /\
    acceptsGap strictGap gm rows cols w (moveCandidate m) = true /\
    (forall c, c ∈ before -> acceptsGap strictGap gm rows cols w c = true ->
               dist4 rows cols w (moveCandidate m) < dist4 rows cols w c) /\
    (forall c, c ∈ after -> acceptsGap strictGap gm rows cols w c = true ->
               dist4 rows cols w (moveCandidate m) <= dist4 rows cols w c).

(** The rule of the specification, 4.3, for one unplaced word: the strict
    successes are preferred when there is one, and among the candidates
    accepted the closest is selected. *)
Definition selectsClosest (rows cols : Z) (st : LayoutState) (w : WordData)
    (bestMove : option Later.Move) : Prop :=
  match bestMove with
  | Some m =>
      exists strictGap : bool,
        closestIn strictGap (gridMap st) rows cols w (candidates st w) m /\
        (strictGap = false ->
         forall c, c ∈ candidates st w -> acceptsGap true (gridMap st) rows cols w c = false)
  | None =>
      forall c, c ∈ candidates st w -> acceptsGap false (gridMap st) rows cols w c = false
  end.

(** The two-step cells to the sides of letter [i] of a word at
    [(row, col)] are empty. *)
Definition gapFree (gm : GridMap) (row col : Z) (o : Orientation) (i : nat) : Prop :=
  isOccupied gm (row + Z.of_nat i * dr o + 2 * dc o) (col + Z.of_nat i * dc o + 2 * dr o) = false /\
  isOccupied gm (row + Z.of_nat i * dr o - 2 * dc o) (col + Z.of_nat i * dc o - 2 * dr o) = false.

(** ** What the specification asks of the grid model *)

(** The cell that letter [i] of a placement occupies, and that letter. *)
Definition cellOf (pw : PlacedWord) (i : nat) : Z * Z :=
  (row pw + Z.of_nat i * dr (orientation pw), col pw + Z.of_nat i * dc (orientation pw)).

Definition letterAt (w : string) (i : nat) : option ascii :=
  list_ascii_of_string w !! i.

(** Placement [pw] assigns letter [ch] to cell [rc]. *)
Definition assigns (pw : PlacedWord) (rc : Z * Z) (ch : ascii) : Prop :=
  exists i, letterAt (word pw) i = Some ch /\ cellOf pw i = rc.


(** Some placement of the array starts at the cell. *)
Definition isOrigin (s : Store) (refs : list loc) (rc : Z * Z) : bool :=
  existsb (startsAt s rc.1 rc.2) refs.

(** Row-major order on cells. *)
Definition rowMajorLt (a b : Z * Z) : Prop :=
  a.1 < b.1 \/ (a.1 = b.1 /\ a.2 < b.2).

(** Placement [p] crosses placement [q]: perpendicular, and one cell on
    both paths gets the same letter from both. *)
Definition crosses (q p : PlacedWord) : Prop :=
  orientation p <> orientation q /\
  exists rc ch, assigns q rc ch /\ assigns p rc ch.

(** The map holds, under every letter of every placed word, that letter. *)
Definition consistent (st : LayoutState) : Prop :=
  forall (p : PlacedWord) rc ch, p ∈ placed st -> assigns p rc ch -> gridMap st !! rc = Some ch.

(** The order that the sort of the words establishes. *)
Definition longerEq (a b : WordData) : Prop :=
  (String.length (word b) <= String.length (word a))%nat.

(** Every placement of the list but the first crosses one before it. *)
Definition chained (l : list PlacedWord) : Prop :=
  forall i p, l !! i = Some p -> (0 < i)%nat ->
  exists i' q, (i' < i)%nat /\ l !! i' = Some q /\ crosses q p.

(** The writes that reach one cell of the board: a cell after the writes
    [ws] of word identities and letters, whether letter [ic] of a placement
    is written to cell [rc], and all the writes to [rc] in the order of the
    letter pass. *)
Definition cellAfter (ws : list (string * ascii)) (cell : GridCellData) : GridCellData :=
  foldl (fun cell w => writeLetter w.1 w.2 cell) cell ws.

Definition hit (rows cols : Z) (rc : Z * Z) (pw : PlacedWord) (ic : nat * ascii) : bool :=
  inGrid rows cols (cellOf pw ic.1).1 (cellOf pw ic.1).2 && bool_decide (cellOf pw ic.1 = rc).

Definition cellWrites (rows cols : Z) (rc : Z * Z) (vals : list PlacedWord)
    : list (string * ascii) :=
  vals ≫= (fun pw : PlacedWord =>
    (fun ic : nat * ascii => (id pw, ic.2)) <$> List.filter (hit rows cols rc pw) (letters (word pw))).

(** Two stores that differ at most in the [number] fields of their
    objects. *)
Definition sameButNumber (s s' : Store) : Prop :=
  forall l, data (s' l) = data (s l) /\ row (s' l) = row (s l) /\
            col (s' l) = col (s l) /\ orientation (s' l) = orientation (s l).

(** How many of the cells [cs] are the origin of a placement. *)
Definition countOrigins (s : Store) (refs : list loc) (cs : list (Z * Z)) : Z :=
  Z.of_nat (length (List.filter (isOrigin s refs) cs)).

(** A cell without its clue number. *)
Definition stripNumber (cell : GridCellData) : GridCellData :=
  mkCell (cell_row cell) (cell_col cell) (char cell) None
         (wordIds cell) (isValid cell) (isError cell).


(** The whole extent of a placement lies in the grid. *)
Definition extentInGrid (rows cols : Z) (w : string) (row col : Z) (o : Orientation) : Prop :=
  forall i, (i < String.length w)%nat ->
  inGrid rows cols (row + Z.of_nat i * dr o) (col + Z.of_nat i * dc o) = true.

(** The placement of the first word (lines 199-208). *)
Definition anchor (rows cols : Z) (firstWord : WordData) : PlacedWord :=
  if 0 <=? (cols - wlen (word firstWord)) / 2
  then mkPlacedWord firstWord (rows / 2) ((cols - wlen (word firstWord)) / 2) across None
  else mkPlacedWord firstWord 0 0 across None.

(** ** Sample inputs *)

Definition W (s : string) : WordData := mkWordData s s "".

(** The states that [generateLayout] reaches after the first word of
    [REACT; STATE] on 15 x 15, after the first two words of
    [ABC; AXX; CZZ] on 15 x 15, and after the first word of [ABCDE; EXY]
    on 5 x 2. *)
Definition st_react : LayoutState :=
  placeWordInMap emptyLayout (anchor 15 15 (W "REACT")).

Definition st_abc : LayoutState :=
  placeWordInMap (placeWordInMap emptyLayout (anchor 15 15 (W "ABC")))
                 (mkPlacedWord (W "AXX") 7 6 down None).

Definition st_long : LayoutState :=
  placeWordInMap emptyLayout (anchor 5 2 (W "ABCDE")).


Definition s_cat_dog : Store :=
  fun l => match l with
           | O => mkPlacedWord (W "CAT") 0 0 across None
           | _ => mkPlacedWord (W "DOG") 0 0 down None
           end.

(** * Properties *)

(** ** Letters of a word *)

Lemma elem_of_letters (w : string) (i : nat) (ch : ascii) :
  (i, ch) ∈ letters w <-> letterAt w i = Some ch.
Proof.
  unfold letters, letterAt. rewrite elem_of_lookup_imap. split.
  - intros (j & y & Heq & Hl). by inversion Heq; subst.
  - intros Hl. by exists i, ch.
Qed.

Lemma length_letters (w : string) : length (letters w) = String.length w.
Proof.
  unfold letters. rewrite length_imap.
  induction w as [|a w IH]; simpl; [done|by rewrite IH].
Qed.

Lemma flip_neq (o : Orientation) : flip o <> o.
Proof. by destruct o. Qed.

(** ** The search commits the first accepted candidate *)

Section Search.
Context {A B C : Type}.

Lemma firstSome_head (f : A -> option B) (h : A -> list C) (P : C -> bool) (F : C -> B)
    (l : list A) :
  (forall x, f x = F <$> head (List.filter P (h x))) ->
  firstSome f l = F <$> head (List.filter P (l ≫= h)).
Proof.
  intros Hf. induction l as [|x l IH]; [done|].
  simpl. rewrite Hf, List.filter_app.
  destruct (List.filter P (h x)) as [|y ys]; simpl; [apply IH|done].
Qed.
End Search.

Lemma tryCrossing_head gm rows cols w pw jc kc :
  tryCrossing gm rows cols w pw jc kc =
  toPlacement w <$> head (List.filter (accepts gm rows cols w)
    (if decide (kc.2 = jc.2) then [crossingAt pw jc.1 kc.1] else [])).
Proof.
  unfold tryCrossing. case_decide; [|done].
  destruct (crossingAt pw jc.1 kc.1) as [[r c] o].
  unfold accepts, toPlacement; cbn [List.filter fst snd].
  by destruct (canPlace gm rows cols (word w) r c o).
Qed.

Lemma findPlacement_first_accepted rows cols st w :
  findPlacement rows cols st w =
  toPlacement w <$> head (List.filter (accepts (gridMap st) rows cols w) (candidates st w)).
Proof.
  unfold findPlacement, candidates.
  apply firstSome_head. intros pw.
  apply firstSome_head. intros jc.
  apply firstSome_head. intros kc.
  apply tryCrossing_head.
Qed.

Lemma head_filter_Some {A} (P : A -> bool) (l : list A) (x : A) :
  head (List.filter P l) = Some x ->
  exists pre post, l = pre ++ x :: post /\ P x = true /\ forallb (fun y => negb (P y)) pre = true.
Proof.
  induction l as [|y l IH]; simpl; [done|].
  destruct (P y) eqn:Hy; simpl.
  - intros [= ->]. by exists [], l.
  - intros H. destruct (IH H) as (pre & post & -> & Hx & Hpre).
    exists (y :: pre), post. simpl. by rewrite Hy.
Qed.

Lemma head_filter_None {A} (P : A -> bool) (l : list A) :
  head (List.filter P l) = None <-> forallb (fun y => negb (P y)) l = true.
Proof.
  induction l as [|y l IH]; simpl; [done|].
  destruct (P y); simpl; [split; done|apply IH].
Qed.

Lemma elem_of_candidates st w c :
  c ∈ candidates st w <->
  exists (pw : PlacedWord) j k ch, pw ∈ placed st /\ letterAt (word w) j = Some ch /\
                    letterAt (word pw) k = Some ch /\ c = crossingAt pw j k.
Proof.
  unfold candidates. rewrite list_elem_of_bind. split.
  - intros (pw & Hc & Hpw). apply list_elem_of_bind in Hc as ([j cj] & Hc & Hj).
    apply list_elem_of_bind in Hc as ([k ck] & Hc & Hk).
    simpl in Hc. case_decide as E; [|by apply elem_of_nil in Hc].
    apply list_elem_of_singleton in Hc. simpl in E. subst ck.
    exists pw, j, k, cj. by rewrite <- !elem_of_letters.
  - intros (pw & j & k & ch & Hpw & Hj & Hk & ->).
    exists pw. split; [|done].
    apply list_elem_of_bind. exists (j, ch). split; [|by apply elem_of_letters].
    apply list_elem_of_bind. exists (k, ch). split; [|by apply elem_of_letters].
    simpl. rewrite decide_True by done. by apply list_elem_of_singleton.
Qed.

Lemma findPlacement_Some rows cols st w p :
  findPlacement rows cols st w = Some p ->
  exists c, c ∈ candidates st w /\ accepts (gridMap st) rows cols w c = true /\
            p = toPlacement w c.
Proof.
  rewrite findPlacement_first_accepted. intros H.
  apply fmap_Some in H as (c & Hc & ->).
  apply head_filter_Some in Hc as (pre & post & Heq & Hacc & _).
  exists c. split_and!; [|done..]. rewrite Heq. set_solver.
Qed.

Lemma crossingAt_crosses (w : WordData) (pw : PlacedWord) j k ch :
  letterAt (word w) j = Some ch -> letterAt (word pw) k = Some ch ->
  crosses pw (toPlacement w (crossingAt pw j k)).
Proof.
  intros Hj Hk. split.
  - simpl. apply flip_neq.
  - exists (cellOf pw k), ch. split; [by exists k|].
    exists j. split; [done|].
    unfold cellOf, crossingAt, toPlacement; simpl.
    unfold flip, dr, dc. destruct (orientation pw); simpl; f_equal; lia.
Qed.

(** ** Sorting the words *)

Lemma insertWord_perm x l : insertWord x l ≡ₚ x :: l.
Proof.
  induction l as [|y l IH]; simpl; [done|].
  case_match; [done|]. rewrite IH. apply perm_swap.
Qed.

Lemma sortWords_perm l : sortWords l ≡ₚ l.
Proof.
  induction l as [|x l IH]; simpl; [done|].
  by rewrite insertWord_perm, IH.
Qed.

Lemma insertWord_sorted x l :
  StronglySorted longerEq l -> StronglySorted longerEq (insertWord x l).
Proof.
  induction 1 as [|y l Hs IH Hall]; simpl.
  - repeat constructor.
  - case_match eqn:E.
    + apply Nat.leb_le in E. constructor; [by constructor|].
      constructor; [done|].
      eapply Forall_impl; [exact Hall|]. unfold longerEq. intros; lia.
    + apply Nat.leb_gt in E. constructor; [done|].
      rewrite insertWord_perm. constructor; [|done]. unfold longerEq; lia.
Qed.

Lemma sortWords_sorted l : StronglySorted longerEq (sortWords l).
Proof.
  induction l as [|x l IH]; simpl; [constructor|by apply insertWord_sorted].
Qed.

Lemma sortWords_head_longest l x l' :
  sortWords l = x :: l' ->
  x ∈ l /\ forall y, y ∈ l -> (String.length (word y) <= String.length (word x))%nat.
Proof.
  intros E. pose proof (sortWords_sorted l) as Hs. pose proof (sortWords_perm l) as Hp.
  rewrite E in Hs, Hp. split.
  - rewrite <- Hp. by left.
  - intros y Hy. rewrite <- Hp in Hy. apply StronglySorted_inv in Hs as [_ Hall].
    apply elem_of_cons in Hy as [->|Hy]; [done|].
    rewrite Forall_forall in Hall. by apply Hall.
Qed.

(** ** The scan and the retry loop *)

Lemma placed_placeWordInMap st p : placed (placeWordInMap st p) = placed st ++ [p].
Proof. done. Qed.

Lemma findPlacement_data rows cols st w p :
  findPlacement rows cols st w = Some p -> data p = w.
Proof. intros H. by apply findPlacement_Some in H as (c & _ & _ & ->). Qed.

Section Invariant.
Variables (rows cols : Z) (Inv : LayoutState -> Prop).
Hypothesis commit : forall st w p,
  Inv st -> findPlacement rows cols st w = Some p -> Inv (placeWordInMap st p).

Lemma scanUnplaced_invariant unplaced : forall st,
  Inv st -> Inv (scanUnplaced rows cols st unplaced).1.1.
Proof using commit.
  induction unplaced as [|w rest IH]; intros st HI; simpl; [done|].
  destruct (findPlacement rows cols st w) as [p|] eqn:E.
  - specialize (IH _ (commit _ _ _ HI E)).
    by destruct (scanUnplaced rows cols (placeWordInMap st p) rest) as [[? ?] ?].
  - specialize (IH _ HI).
    by destruct (scanUnplaced rows cols st rest) as [[? ?] ?].
Qed.

Lemma retryLoop_invariant fuel : forall st unplaced changed st',
  Inv st -> retryLoop fuel rows cols st unplaced changed = Some st' -> Inv st'.
Proof using commit.
  induction fuel as [|fuel IH]; intros st unplaced changed st' HI; simpl;
    destruct (changed && bool_decide (0 < length unplaced)%nat); try congruence.
  pose proof (scanUnplaced_invariant unplaced st HI) as HI'.
  destruct (scanUnplaced rows cols st unplaced) as [[st1 rem] ch]. by apply IH.
Qed.
End Invariant.

(** What one scan does to the two lists. *)
Lemma scanUnplaced_lists rows cols unplaced : forall st st' rem ch,
  scanUnplaced rows cols st unplaced = (st', rem, ch) ->
  exists added,
    placed st' = placed st ++ added /\
    (data <$> added) ++ rem ≡ₚ unplaced /\
    (if ch then (length rem < length unplaced)%nat else st' = st /\ rem = unplaced).
Proof.
  induction unplaced as [|w rest IH]; intros st st' rem ch; simpl.
  - intros [= <- <- <-]. exists []. by rewrite app_nil_r.
  - destruct (findPlacement rows cols st w) as [p|] eqn:E.
    + destruct (scanUnplaced rows cols (placeWordInMap st p) rest) as [[st1 rem1] ch1] eqn:E1.
      intros [= <- <- <-].
      destruct (IH _ _ _ _ E1) as (added & Hpl & Hperm & Hch).
      exists (p :: added). rewrite Hpl, placed_placeWordInMap, <- app_assoc.
      split_and!; [done| |].
      * simpl. by rewrite (findPlacement_data _ _ _ _ _ E), Hperm.
      * apply Permutation_length in Hperm. rewrite length_app in Hperm. simpl. lia.
    + destruct (scanUnplaced rows cols st rest) as [[st1 rem1] ch1] eqn:E1.
      intros [= <- <- <-].
      destruct (IH _ _ _ _ E1) as (added & Hpl & Hperm & Hch).
      exists added. split_and!; [done| |].
      * by rewrite <- Permutation_middle, Hperm.
      * destruct ch1; [simpl; lia|]. by destruct Hch as [-> ->].
Qed.

(** The loop ends within [length unplaced] rounds, and every word ends up
    placed once or not at all. *)
Lemma retryLoop_total rows cols fuel : forall st unplaced changed,
  (length unplaced <= fuel)%nat ->
  exists st' added rem,
    retryLoop fuel rows cols st unplaced changed = Some st' /\
    placed st' = placed st ++ added /\
    (data <$> added) ++ rem ≡ₚ unplaced.
Proof.
  induction fuel as [|fuel IH]; intros st unplaced changed Hlen; simpl;
    destruct (changed && bool_decide (0 < length unplaced)%nat) eqn:Hc;
    try (exists st, [], unplaced; by rewrite app_nil_r).
  - apply andb_true_iff in Hc as [_ Hc]. apply bool_decide_eq_true in Hc. lia.
  - destruct (scanUnplaced rows cols st unplaced) as [[st1 rem1] ch1] eqn:E1.
    destruct (scanUnplaced_lists _ _ _ _ _ _ _ E1) as (added1 & Hpl1 & Hperm1 & Hch).
    assert (exists st' added rem,
      retryLoop fuel rows cols st1 rem1 ch1 = Some st' /\
      placed st' = placed st1 ++ added /\ (data <$> added) ++ rem ≡ₚ rem1)
      as (st' & added & rem & Hrun & Hpl & Hperm).
    { destruct ch1.
      - apply IH. lia.
      - exists st1, [], rem1. rewrite app_nil_r. split_and!; [|done..].
        by destruct fuel. }
    exists st', (added1 ++ added), rem. split_and!; [done| |].
    + by rewrite Hpl, Hpl1, app_assoc.
    + by rewrite fmap_app, <- app_assoc, Hperm.
Qed.

Lemma retryLoop_fuel rows cols fuel fuel' st unplaced changed :
  (length unplaced <= fuel)%nat -> (length unplaced <= fuel')%nat ->
  retryLoop fuel' rows cols st unplaced changed = retryLoop fuel rows cols st unplaced changed.
Proof.
  revert fuel' st unplaced changed.
  induction fuel as [|fuel IH]; intros fuel' st unplaced changed H1 H2;
    destruct fuel' as [|fuel']; simpl;
    destruct (changed && bool_decide (0 < length unplaced)%nat) eqn:Hc; try done;
    try (apply andb_true_iff in Hc as [_ Hc]; apply bool_decide_eq_true in Hc; lia).
  destruct (scanUnplaced rows cols st unplaced) as [[st1 rem1] ch1] eqn:E1.
  destruct (scanUnplaced_lists _ _ _ _ _ _ _ E1) as (added1 & _ & _ & Hch).
  destruct ch1; [apply IH; lia|]. by destruct fuel, fuel'.
Qed.

Lemma generateLayoutFuel_anchor fuel words rows cols firstWord unplaced :
  sortWords words = firstWord :: unplaced ->
  generateLayoutFuel fuel words rows cols =
  placed <$> retryLoop fuel rows cols
    (placeWordInMap emptyLayout (anchor rows cols firstWord)) unplaced true.
Proof.
  intros E. unfold generateLayoutFuel, anchor. rewrite E.
  by destruct (0 <=? (cols - wlen (word firstWord)) / 2).
Qed.

Lemma sortWords_length l : length (sortWords l) = length l.
Proof. by rewrite sortWords_perm. Qed.

(** The layout returns: its result is the anchor followed by placements of
    distinct other words. *)
Lemma generateLayout_run words rows cols firstWord unplaced :
  sortWords words = firstWord :: unplaced ->
  exists st' added rem,
    retryLoop (length words) rows cols
      (placeWordInMap emptyLayout (anchor rows cols firstWord)) unplaced true = Some st' /\
    generateLayout words rows cols = Some (anchor rows cols firstWord :: added) /\
    placed st' = anchor rows cols firstWord :: added /\
    (data <$> added) ++ rem ≡ₚ unplaced.
Proof.
  intros E. pose proof (sortWords_length words) as Hl. rewrite E in Hl. simpl in Hl.
  destruct (retryLoop_total rows cols (length words)
              (placeWordInMap emptyLayout (anchor rows cols firstWord)) unplaced true)
    as (st' & added & rem & Hrun & Hpl & Hperm); [lia|].
  exists st', added, rem. split_and!; [done| |done..].
  unfold generateLayout. rewrite (generateLayoutFuel_anchor _ _ _ _ _ _ E), Hrun.
  simpl. by rewrite Hpl.
Qed.

(** More fuel than the number of words changes nothing. *)
Lemma generateLayoutFuel_enough fuel words rows cols :
  (length words <= fuel)%nat ->
  generateLayoutFuel fuel words rows cols = generateLayout words rows cols.
Proof.
  intros Hf. unfold generateLayout.
  destruct (sortWords words) as [|firstWord unplaced] eqn:E.
  - unfold generateLayoutFuel. by rewrite E.
  - rewrite !(generateLayoutFuel_anchor _ _ _ _ _ _ E). f_equal.
    pose proof (sortWords_length words) as Hl. rewrite E in Hl. simpl in Hl.
    apply retryLoop_fuel; lia.
Qed.

(** ** The auto-layout engine *)

Lemma chained_snoc l p q :
  chained l -> q ∈ l -> crosses q p -> chained (l ++ [p]).
Proof.
  intros Hl Hq Hc i p' Hi Hpos.
  destruct (decide (i < length l)%nat) as [Hlt|Hge].
  - rewrite lookup_app_l in Hi by done.
    destruct (Hl i p' Hi Hpos) as (i' & q' & Hlt' & Hq' & Hcr).
    exists i', q'. split_and!; [done| |done]. by apply lookup_app_l_Some.
  - rewrite lookup_app_r in Hi by lia.
    destruct (i - length l)%nat as [|n] eqn:E; [|by destruct n].
    injection Hi as <-.
    apply list_elem_of_lookup in Hq as [i' Hi'].
    exists i', q. split_and!; [|by apply lookup_app_l_Some|done].
    apply lookup_lt_Some in Hi'. lia.
Qed.

Lemma findPlacement_chained rows cols st w p :
  chained (placed st) -> findPlacement rows cols st w = Some p ->
  chained (placed (placeWordInMap st p)).
Proof.
  intros Hch Hf. apply findPlacement_Some in Hf as (c & Hc & _ & ->).
  apply elem_of_candidates in Hc as (pw & j & k & ch & Hpw & Hj & Hk & ->).
  rewrite placed_placeWordInMap. eapply chained_snoc; [done..|].
  by eapply crossingAt_crosses.
Qed.

(** C7. For every non-empty word list, the first placement of the layout
    is a word of maximal length, placed across at row [rows / 2] and column
    [(cols - length) / 2], or at row 0 and column 0 when that column is
    negative; the layout of the single word CAT on a 15 x 15 grid is that
    word alone, across, at row 7 and column 6. *)
Theorem generateLayout_anchor :
  (forall (w : WordData) (ws : list WordData) (rows cols : Z),
     exists first rest,
       generateLayout (w :: ws) rows cols = Some (first :: rest) /\
       data first ∈ w :: ws /\
       (forall y, y ∈ w :: ws ->
                  (String.length (word y) <= String.length (word first))%nat) /\
       orientation first = across /\
       (row first, col first) =
         (if 0 <=? (cols - wlen (word first)) / 2
          then (rows / 2, (cols - wlen (word first)) / 2)
          else (0, 0))) /\
  (forall i c : string,
     generateLayout [mkWordData i "CAT" c] 15 15 =
     Some [mkPlacedWord (mkWordData i "CAT" c) 7 6 across None]).
Proof.
  split; [|done].
  intros w ws rows cols.
  destruct (sortWords (w :: ws)) as [|firstWord unplaced] eqn:E.
  { pose proof (sortWords_length (w :: ws)) as Hl. by rewrite E in Hl. }
  destruct (generateLayout_run _ rows cols _ _ E) as (st' & added & rem & _ & Hrun & _ & _).
  destruct (sortWords_head_longest _ _ _ E) as [Hin Hmax].
  exists (anchor rows cols firstWord), added. rewrite Hrun.
  unfold anchor. destruct (0 <=? (cols - wlen (word firstWord)) / 2) eqn:Hfc; simpl;
    rewrite ?Hfc; done.
Qed.

(** C8. The layout returns for every input, places every input word at
    most once, so that its result is no longer than the word list, and
    returns the empty list on the empty word list. *)
Theorem generateLayout_at_most_one_per_word (words : list WordData) (rows cols : Z) :
  (exists res, generateLayout words rows cols = Some res /\
               data <$> res ⊆+ words /\
               (length res <= length words)%nat) /\
  generateLayout [] rows cols = Some [].
Proof.
  split; [|done].
  assert (exists res, generateLayout words rows cols = Some res /\ data <$> res ⊆+ words)
    as (res & Hrun & Hsub).
  { destruct (sortWords words) as [|firstWord unplaced] eqn:E.
    - pose proof (sortWords_length words) as Hl. rewrite E in Hl.
      destruct words; [|done]. by exists [].
    - destruct (generateLayout_run _ rows cols _ _ E) as (st' & added & rem & _ & Hrun & _ & Hperm).
      eexists. split; [exact Hrun|].
      rewrite <- (sortWords_perm words), E, <- Hperm, fmap_cons.
      replace (data (anchor rows cols firstWord)) with firstWord
        by (unfold anchor; by case_match).
      apply submseteq_skip, submseteq_inserts_r. done. }
  exists res. split_and!; [done..|].
  apply submseteq_length in Hsub. by rewrite length_fmap in Hsub.
Qed.

(** C10. In every layout, every placement but the first crosses a
    placement committed before it: the two are perpendicular, and some
    cell lies on both paths and gets the same letter from both. *)
Theorem generateLayout_crossings (words : list WordData) (rows cols : Z) :
  exists res, generateLayout words rows cols = Some res /\
  forall i p, res !! i = Some p -> (0 < i)%nat ->
  exists i' q, (i' < i)%nat /\ res !! i' = Some q /\
    orientation p <> orientation q /\
    exists rc ch, assigns q rc ch /\ assigns p rc ch.
Proof.
  destruct (sortWords words) as [|firstWord unplaced] eqn:E.
  - exists []. split; [|done].
    unfold generateLayout, generateLayoutFuel. by rewrite E.
  - destruct (generateLayout_run _ rows cols _ _ E) as (st' & added & rem & Hloop & Hrun & Hpl & _).
    eexists. split; [exact Hrun|]. rewrite <- Hpl.
    apply (retryLoop_invariant rows cols (fun st => chained (placed st))
             (findPlacement_chained rows cols) _ _ _ _ _) in Hloop; [exact Hloop|].
    intros [|[|i]] p Hi Hpos; simpl in *; done || lia.
Qed.

(** ** Which candidate the search of src/utils.ts commits *)

(** The first word of a scan is committed where the search finds it. *)
Lemma scanUnplaced_commits rows cols st w rest p :
  findPlacement rows cols st w = Some p ->
  exists added, placed (scanUnplaced rows cols st (w :: rest)).1.1 = placed st ++ p :: added.
Proof.
  intros Hf. simpl. rewrite Hf.
  destruct (scanUnplaced rows cols (placeWordInMap st p) rest) as [[st1 rem1] ch1] eqn:E1.
  destruct (scanUnplaced_lists _ _ _ _ _ _ _ E1) as (added & Hpl & _).
  exists added. simpl. by rewrite Hpl, placed_placeWordInMap, <- app_assoc.
Qed.

(** On a 15 x 15 grid with REACT placed, the search of src/utils.ts
    commits STATE down from row 6, column 9, although the crossing down
    from row 5, column 7 is accepted too and lies closer to the centre of
    the grid. *)
Lemma findPlacement_not_closest :
  generateLayout [W "REACT"; W "STATE"] 15 15 =
    Some [mkPlacedWord (W "REACT") 7 5 across None;
          mkPlacedWord (W "STATE") 6 9 down None] /\
  ~ commitsClosest 15 15 st_react (W "STATE").
Proof.
  split; [done|].
  intros H.
  specialize (H (mkPlacedWord (W "STATE") 6 9 down None) eq_refl (5, 7, down)).
  assert ((5, 7, down) ∈ candidates st_react (W "STATE")) as Hin.
  { apply elem_of_candidates.
    exists (anchor 15 15 (W "REACT")), 2%nat, 2%nat, "A"%char.
    split_and!; [|done..]. by apply list_elem_of_singleton. }
  specialize (H Hin eq_refl). vm_compute in H. by apply H.
Qed.

(** What the search of src/utils.ts does instead: it leaves its loops at
    the first candidate crossing in scan order that the validator
    accepts. *)
Lemma findPlacement_commits_first_accepted (rows cols : Z) (st : LayoutState) (w : WordData)
    (before : list Candidate) (c : Candidate) (after : list Candidate) :
  candidates st w = before ++ c :: after ->
  (forall c', c' ∈ before -> accepts (gridMap st) rows cols w c' = false) ->
  accepts (gridMap st) rows cols w c = true ->
  findPlacement rows cols st w = Some (toPlacement w c) /\
  forall rest, exists added,
    placed (scanUnplaced rows cols st (w :: rest)).1.1 = placed st ++ toPlacement w c :: added.
Proof.
  intros Hcs Hbefore Hc.
  assert (findPlacement rows cols st w = Some (toPlacement w c)) as Hf.
  { rewrite findPlacement_first_accepted, Hcs, List.filter_app.
    replace (List.filter (accepts (gridMap st) rows cols w) before) with (@nil Candidate).
    - simpl. by rewrite Hc.
    - clear Hcs. induction before as [|x l IH]; [done|]. simpl.
      rewrite (Hbefore x) by by left. apply IH. intros; apply Hbefore. by right. }
  split; [done|]. intros rest. by apply scanUnplaced_commits.
Qed.

(** ** Strictness of the validator of src/utils.ts *)

Lemma adjacencyOk_strict gm o r c : adjacencyOk gm o r c = adjacencyOkGap true gm o r c.
Proof. done. Qed.

Lemma canPlace_strict gm rows cols w row col o :
  canPlace gm rows cols w row col o = canPlaceGap true gm rows cols w row col o.
Proof. done. Qed.

Lemma findPlacement_None rows cols st w :
  findPlacement rows cols st w = None <->
  forall c, c ∈ candidates st w -> accepts (gridMap st) rows cols w c = false.
Proof.
  rewrite findPlacement_first_accepted, fmap_None, head_filter_None, forallb_forall.
  split; intros H c Hc.
  - apply negb_true_iff, H. by apply list_elem_of_In.
  - apply negb_true_iff, H. by apply list_elem_of_In.
Qed.

(** Where [canPlace] accepts, every cell the word newly writes has the two
    cells two steps to its sides empty. *)
Lemma canPlace_gap gm rows cols w row col o i ch :
  canPlace gm rows cols w row col o = true ->
  letterAt w i = Some ch ->
  getChar gm (row + Z.of_nat i * dr o) (col + Z.of_nat i * dc o) = None ->
  isOccupied gm (row + Z.of_nat i * dr o + 2 * dc o) (col + Z.of_nat i * dc o + 2 * dr o) = false /\
  isOccupied gm (row + Z.of_nat i * dr o - 2 * dc o) (col + Z.of_nat i * dc o - 2 * dr o) = false.
Proof.
  unfold canPlace. intros Hcp Hi Hnew.
  destruct ((row <? 0) || (col <? 0)); [done|].
  destruct (bool_decide (o = across) && (col + wlen w >? cols)); [done|].
  destruct (bool_decide (o = down) && (row + wlen w >? rows)); [done|].
  destruct (forallb (letterOk gm row col o) (letters w)) eqn:Hall; [|done].
  rewrite forallb_forall in Hall.
  specialize (Hall (i, ch)). rewrite <- list_elem_of_In, elem_of_letters in Hall.
  specialize (Hall Hi). unfold letterOk in Hall. cbn [fst snd] in Hall.
  rewrite Hnew in Hall. unfold adjacencyOk in Hall.
  destruct (_ || _) in Hall; [done|].
  destruct (isOccupied gm _ _ || isOccupied gm _ _) eqn:Hgap in Hall; [done|].
  by apply orb_false_iff in Hgap.
Qed.

(** On a 15 x 15 grid with ABC across and AXX down from its A, the only
    crossing of CZZ fails the two-step gap check and passes every other
    check; the layout of src/utils.ts does not retry it and drops the
    word. *)
Lemma findPlacement_no_retry :
  generateLayout [W "ABC"; W "AXX"; W "CZZ"] 15 15 =
    Some [mkPlacedWord (W "ABC") 7 6 across None;
          mkPlacedWord (W "AXX") 7 6 down None] /\
  ~ retriesRelaxed 15 15 st_abc (W "CZZ").
Proof.
  split; [done|].
  intros H.
  assert (candidates st_abc (W "CZZ") = [(7, 8, down)]) as Hcs by done.
  destruct (H) with (c := (7, 8, down)) as [p Hp].
  - intros c. rewrite Hcs. intros ->%list_elem_of_singleton. done.
  - rewrite Hcs. by apply list_elem_of_singleton.
  - done.
  - by vm_compute in Hp.
Qed.

(** The search of src/utils.ts sweeps the candidates once: a word none of
    whose candidates passes the strict validator gets no placement and
    stays in the unplaced list, where the scan goes on from the same
    state. *)
Lemma findPlacement_sweeps_once rows cols st w :
  (forall c, c ∈ candidates st w ->
             canPlaceGap true (gridMap st) rows cols (word w) c.1.1 c.1.2 c.2 = false) ->
  findPlacement rows cols st w = None /\
  forall rest,
    scanUnplaced rows cols st (w :: rest) =
    let '(st', remaining, changed) := scanUnplaced rows cols st rest in
    (st', w :: remaining, changed).
Proof.
  intros Hall.
  assert (findPlacement rows cols st w = None) as Hf.
  { apply findPlacement_None. intros c Hc. unfold accepts.
    rewrite canPlace_strict. by apply Hall. }
  split; [done|]. intros rest. simpl. by rewrite Hf.
Qed.

(** ** The later copy: the validator and its flag *)

Lemma adjacencyOkGap_strict gm o r c :
  adjacencyOkGap true gm o r c = true <->
  adjacencyOkGap false gm o r c = true /\
  isOccupied gm (r + 2 * dc o) (c + 2 * dr o) = false /\
  isOccupied gm (r - 2 * dc o) (c - 2 * dr o) = false.
Proof.
  unfold adjacencyOkGap.
  destruct (isOccupied gm (r + dc o) (c + dr o) || isOccupied gm (r - dc o) (c - dr o));
    [intuition congruence|].
  destruct (isOccupied gm (r + 2 * dc o) (c + 2 * dr o)),
           (isOccupied gm (r - 2 * dc o) (c - 2 * dr o));
    cbn [andb orb]; intuition congruence.
Qed.

Lemma letterOkGap_strict gm row col o ic :
  letterOkGap true gm row col o ic = true <->
  letterOkGap false gm row col o ic = true /\
  (getChar gm (row + Z.of_nat ic.1 * dr o) (col + Z.of_nat ic.1 * dc o) = None ->
   gapFree gm row col o ic.1).
Proof.
  unfold letterOkGap, gapFree.
  destruct (getChar gm _ _) as [existing|]; [intuition congruence|].
  rewrite adjacencyOkGap_strict. intuition congruence.
Qed.

(** The flag of the later validator: strict is relaxed together with the
    two-step test at every cell the word newly writes. *)
Lemma canPlaceGap_strict gm rows cols w row col o :
  canPlaceGap true gm rows cols w row col o = true <->
  canPlaceGap false gm rows cols w row col o = true /\
  forall i ch, letterAt w i = Some ch ->
    getChar gm (row + Z.of_nat i * dr o) (col + Z.of_nat i * dc o) = None ->
    gapFree gm row col o i.
Proof.
  unfold canPlaceGap.
  destruct ((row <? 0) || (col <? 0)); [intuition congruence|].
  destruct (bool_decide (o = across) && (col + wlen w >? cols)); [intuition congruence|].
  destruct (bool_decide (o = down) && (row + wlen w >? rows)); [intuition congruence|].
  assert (forallb (letterOkGap true gm row col o) (letters w) = true <->
          forallb (letterOkGap false gm row col o) (letters w) = true /\
          forall i ch, letterAt w i = Some ch ->
            getChar gm (row + Z.of_nat i * dr o) (col + Z.of_nat i * dc o) = None ->
            gapFree gm row col o i) as Hall.
  { rewrite !forallb_forall. split.
    - intros H. split.
      + intros ic Hic. by apply letterOkGap_strict, H.
      + intros i ch Hi. apply (letterOkGap_strict gm row col o (i, ch)), H.
        by apply list_elem_of_In, elem_of_letters.
    - intros [H Hgap] [i ch] Hic. apply letterOkGap_strict. split; [by apply H|].
      apply (Hgap i ch). by apply elem_of_letters, list_elem_of_In. }
  destruct (forallb (letterOkGap true gm row col o) (letters w)),
           (forallb (letterOkGap false gm row col o) (letters w));
    cbn [negb];
    destruct (isOccupied gm (row - dr o) (col - dc o));
    destruct (isOccupied gm (row + wlen w * dr o) (col + wlen w * dc o)); intuition congruence.
Qed.

Lemma acceptsGap_relax gm rows cols w c :
  acceptsGap true gm rows cols w c = true -> acceptsGap false gm rows cols w c = true.
Proof. unfold acceptsGap, Later.canPlace. rewrite canPlaceGap_strict. by intros [? _]. Qed.

(** ** The later copy: which candidate the search commits *)

Lemma foldl_ext {A B} (f g : A -> B -> A) (l : list B) :
  (forall a b, f a b = g a b) -> forall a, foldl f a l = foldl g a l.
Proof.
  intros Hfg. induction l as [|b l IH]; intros a; [done|]. simpl. by rewrite Hfg, IH.
Qed.

Lemma foldl_bind {A B C} (f : A -> C -> A) (g : B -> list C) (l : list B) :
  forall a, foldl f a (l ≫= g) = foldl (fun a b => foldl f a (g b)) a l.
Proof.
  induction l as [|b l IH]; intros a; [done|]. cbn. by rewrite foldl_app, IH.
Qed.

Lemma tryCrossing_consider gm rows cols w pw strict jc best kc :
  Later.tryCrossing gm rows cols w pw strict jc best kc =
  foldl (consider strict gm rows cols w) best
        (if decide (kc.2 = jc.2) then [crossingAt pw jc.1 kc.1] else []).
Proof.
  unfold Later.tryCrossing. destruct (decide (kc.2 = jc.2)); [|done].
  by destruct (crossingAt pw jc.1 kc.1) as [[startR startC] newOrientation].
Qed.

(** The three nested loops visit the candidates in the order of
    [candidates]. *)
Lemma sweep_candidates rows cols st w strict best :
  Later.sweep rows cols st w strict best =
  foldl (consider strict (gridMap st) rows cols w) best (candidates st w).
Proof.
  unfold Later.sweep, candidates. rewrite foldl_bind.
  revert best. apply foldl_ext. intros best' pw. rewrite foldl_bind.
  revert best'. apply foldl_ext. intros best' jc. rewrite foldl_bind.
  revert best'. apply foldl_ext. intros best' kc. apply tryCrossing_consider.
Qed.

Lemma moveCandidate_mkMove (c : Candidate) d :
  moveCandidate (Later.mkMove c.1.1 c.1.2 c.2 d) = c.
Proof. by destruct c as [[? ?] ?]. Qed.

(** What [bestMove] holds after the candidates of [l]. *)
Lemma consider_closest strict gm rows cols w l :
  match foldl (consider strict gm rows cols w) None l with
  | Some m => closestIn strict gm rows cols w l m
  | None => forall c, c ∈ l -> acceptsGap strict gm rows cols w c = false
  end.
Proof.
  induction l as [|x l IH] using rev_ind; [by intros c Hc%elem_of_nil|].
  rewrite foldl_app. cbn [foldl]. unfold consider at 1.
  destruct (acceptsGap strict gm rows cols w x) eqn:Hx.
  - destruct (foldl (consider strict gm rows cols w) None l) as [best|].
    + destruct IH as (before & after & Hl & Hd & Hacc & Hbefore & Hafter).
      destruct (dist4 rows cols w x <? Later.dist best) eqn:Hlt.
      * apply Z.ltb_lt in Hlt. exists l, []. rewrite moveCandidate_mkMove.
        split_and!; [done..| |by intros c Hc%elem_of_nil].
        intros c Hc Hcacc. rewrite Hl in Hc.
        apply elem_of_app in Hc as [Hc|Hc]; [specialize (Hbefore c Hc Hcacc); lia|].
        apply elem_of_cons in Hc as [->|Hc]; [lia|].
        specialize (Hafter c Hc Hcacc). lia.
      * apply Z.ltb_ge in Hlt. exists before, (after ++ [x]).
        split_and!; [by rewrite Hl, <- app_assoc|done..|].
        intros c Hc Hcacc.
        apply elem_of_app in Hc as [Hc|Hc]; [by apply Hafter|].
        apply list_elem_of_singleton in Hc as ->. lia.
    + exists l, []. rewrite moveCandidate_mkMove.
      split_and!; [done..| |by intros c Hc%elem_of_nil].
      intros c Hc Hcacc. by rewrite IH in Hcacc.
  - destruct (foldl (consider strict gm rows cols w) None l) as [best|].
    + destruct IH as (before & after & Hl & Hd & Hacc & Hbefore & Hafter).
      exists before, (after ++ [x]).
      split_and!; [by rewrite Hl, <- app_assoc|done..|].
      intros c Hc Hcacc.
      apply elem_of_app in Hc as [Hc|Hc]; [by apply Hafter|].
      apply list_elem_of_singleton in Hc as ->. congruence.
    + intros c Hc. apply elem_of_app in Hc as [Hc|Hc]; [by apply IH|].
      by apply list_elem_of_singleton in Hc as ->.
Qed.

(** The strict sweep first; the relaxed one only when it found nothing. *)
Lemma findBestMove_sweeps rows cols st w :
  Later.findBestMove rows cols st w =
  match Later.sweep rows cols st w true None with
  | Some m => Some m
  | None => Later.sweep rows cols st w false None
  end.
Proof.
  unfold Later.findBestMove. cbn [foldl].
  by destruct (Later.sweep rows cols st w true None).
Qed.

Lemma findBestMove_selects rows cols st w :
  selectsClosest rows cols st w (Later.findBestMove rows cols st w).
Proof.
  rewrite findBestMove_sweeps, !sweep_candidates.
  pose proof (consider_closest true (gridMap st) rows cols w (candidates st w)) as Hs.
  pose proof (consider_closest false (gridMap st) rows cols w (candidates st w)) as Hr.
  destruct (foldl (consider true _ _ _ _) None _) as [m|].
  - exists true. by split.
  - destruct (foldl (consider false _ _ _ _) None _) as [m|]; [|done].
    exists false. by split.
Qed.

Lemma closestIn_elem strict gm rows cols w l m :
  closestIn strict gm rows cols w l m ->
  moveCandidate m ∈ l /\ acceptsGap strict gm rows cols w (moveCandidate m) = true.
Proof.
  intros (before & after & -> & _ & Hacc & _). split; [|done].
  apply elem_of_app. right. by left.
Qed.

(** What one scan of the later copy does to the two lists. *)
Lemma later_scanUnplaced_lists rows cols unplaced : forall st st' rem ch,
  Later.scanUnplaced rows cols st unplaced = (st', rem, ch) ->
  exists added,
    placed st' = placed st ++ added /\
    (data <$> added) ++ rem ≡ₚ unplaced /\
    (if ch then (length rem < length unplaced)%nat else st' = st /\ rem = unplaced).
Proof.
  induction unplaced as [|w rest IH]; intros st st' rem ch; simpl.
  - intros [= <- <- <-]. exists []. by rewrite app_nil_r.
  - destruct (Later.findBestMove rows cols st w) as [m|] eqn:E.
    + destruct (Later.scanUnplaced rows cols (placeWordInMap st (Later.placementOf w m)) rest)
        as [[st1 rem1] ch1] eqn:E1.
      intros [= <- <- <-].
      destruct (IH _ _ _ _ E1) as (added & Hpl & Hperm & Hch).
      exists (Later.placementOf w m :: added).
      rewrite Hpl, placed_placeWordInMap, <- app_assoc.
      split_and!; [done| |].
      * simpl. by rewrite Hperm.
      * apply Permutation_length in Hperm. rewrite length_app in Hperm. simpl. lia.
    + destruct (Later.scanUnplaced rows cols st rest) as [[st1 rem1] ch1] eqn:E1.
      intros [= <- <- <-].
      destruct (IH _ _ _ _ E1) as (added & Hpl & Hperm & Hch).
      exists added. split_and!; [done| |].
      * by rewrite <- Permutation_middle, Hperm.
      * destruct ch1; [simpl; lia|]. by destruct Hch as [-> ->].
Qed.

(** The first word of a scan is committed at the move the search keeps. *)
Lemma later_scanUnplaced_commits rows cols st w rest m :
  Later.findBestMove rows cols st w = Some m ->
  exists added,
    placed (Later.scanUnplaced rows cols st (w :: rest)).1.1 =
    placed st ++ Later.placementOf w m :: added.
Proof.
  intros Hf. cbn [Later.scanUnplaced]. rewrite Hf.
  destruct (Later.scanUnplaced rows cols (placeWordInMap st (Later.placementOf w m)) rest)
    as [[st1 rem1] ch1] eqn:E1.
  destruct (later_scanUnplaced_lists _ _ _ _ _ _ _ E1) as (added & Hpl & _).
  exists added. simpl. by rewrite Hpl, placed_placeWordInMap, <- app_assoc.
Qed.

(** The loop of the later copy ends within [length unplaced] rounds. *)
Lemma later_retryLoop_total rows cols fuel : forall st unplaced changed,
  (length unplaced <= fuel)%nat ->
  exists st' added rem,
    Later.retryLoop fuel rows cols st unplaced changed = Some st' /\
    placed st' = placed st ++ added /\
    (data <$> added) ++ rem ≡ₚ unplaced.
Proof.
  induction fuel as [|fuel IH]; intros st unplaced changed Hlen; simpl;
    destruct (changed && bool_decide (0 < length unplaced)%nat) eqn:Hc;
    try (exists st, [], unplaced; by rewrite app_nil_r).
  - apply andb_true_iff in Hc as [_ Hc]. apply bool_decide_eq_true in Hc. lia.
  - destruct (Later.scanUnplaced rows cols st unplaced) as [[st1 rem1] ch1] eqn:E1.
    destruct (later_scanUnplaced_lists _ _ _ _ _ _ _ E1) as (added1 & Hpl1 & Hperm1 & Hch).
    assert (exists st' added rem,
      Later.retryLoop fuel rows cols st1 rem1 ch1 = Some st' /\
      placed st' = placed st1 ++ added /\ (data <$> added) ++ rem ≡ₚ rem1)
      as (st' & added & rem & Hrun & Hpl & Hperm).
    { destruct ch1.
      - apply IH. lia.
      - exists st1, [], rem1. rewrite app_nil_r. split_and!; [|done..].
        by destruct fuel. }
    exists st', (added1 ++ added), rem. split_and!; [done| |].
    + by rewrite Hpl, Hpl1, app_assoc.
    + by rewrite fmap_app, <- app_assoc, Hperm.
Qed.

(** The later copy returns, for every input. *)
Lemma later_generateLayout_total words rows cols :
  exists res, Later.generateLayout words rows cols = Some res.
Proof.
  unfold Later.generateLayout.
  destruct (sortWords words) as [|firstWord unplaced] eqn:E; [by exists []|].
  pose proof (sortWords_length words) as Hl. rewrite E in Hl. simpl in Hl.
  cbv zeta.
  destruct (later_retryLoop_total rows cols (length words)
              (if 0 <=? (cols - wlen (word firstWord)) / 2
               then placeWordInMap emptyLayout
                      (mkPlacedWord firstWord (rows / 2)
                         ((cols - wlen (word firstWord)) / 2) across None)
               else placeWordInMap emptyLayout (mkPlacedWord firstWord 0 0 across None))
              unplaced true) as (st' & added & rem & Hrun & _); [lia|].
  rewrite Hrun. by eexists.
Qed.

(** C1. For every unplaced word of a pass, the copy of [generateLayout] in
    src/components/Grid.tsx commits, among the candidate crossings its
    validator accepts (the strict successes when there is one, else the
    relaxed ones), the one whose centre is closest to the centre of the
    grid, and of several closest ones the first in scan order; for REACT
    and STATE on a 15 x 15 grid that is STATE down from row 5, column 7.
    The copy in src/utils.ts, which the application imports, misses this:
    on the same input it commits STATE down from row 6, column 9, the
    first accepted crossing, although the crossing at row 5, column 7 is
    accepted and closer. *)
Theorem generateLayout_closest_candidate :
  (forall rows cols st w,
     selectsClosest rows cols st w (Later.findBestMove rows cols st w) /\
     forall m rest,
       Later.findBestMove rows cols st w = Some m ->
       exists added,
         placed (Later.scanUnplaced rows cols st (w :: rest)).1.1 =
         placed st ++ Later.placementOf w m :: added) /\
  Later.findBestMove 15 15 st_react (W "STATE") = Some (Later.mkMove 5 7 down 1) /\
  Later.generateLayout [W "REACT"; W "STATE"] 15 15 =
    Some [mkPlacedWord (W "REACT") 7 5 across None;
          mkPlacedWord (W "STATE") 5 7 down None] /\
  generateLayout [W "REACT"; W "STATE"] 15 15 =
    Some [mkPlacedWord (W "REACT") 7 5 across None;
          mkPlacedWord (W "STATE") 6 9 down None] /\
  ~ commitsClosest 15 15 st_react (W "STATE").
Proof.
  split_and!.
  - intros rows cols st w. split; [apply findBestMove_selects|].
    intros m rest. apply later_scanUnplaced_commits.
  - by vm_compute.
  - by vm_compute.
  - apply findPlacement_not_closest.
  - apply findPlacement_not_closest.
Qed.

(** C2. The validator of the copy in src/components/Grid.tsx takes a
    strictness flag: under it the two cells two steps to the sides of
    every newly written cell must be empty, without it they are not
    looked at and every other check is the same. The layout of that copy
    sweeps the candidates of a word under the strict validator first and
    keeps a strict success when there is one; only when no candidate
    passes the strict validator does it sweep them again under the relaxed
    one; for ABC, AXX and CZZ on a 15 x 15 grid, CZZ is placed down from
    row 7, column 8 in the relaxed sweep. The copy in src/utils.ts, which
    the application imports, misses this: its validator has no flag and is
    the strict one, its layout sweeps once, and on the same input CZZ is
    dropped. *)
Theorem generateLayout_strict_then_relaxed :
  (forall gm rows cols w row col o,
     Later.canPlace gm rows cols w row col o true = true <->
     Later.canPlace gm rows cols w row col o false = true /\
     forall i ch, letterAt w i = Some ch ->
       getChar gm (row + Z.of_nat i * dr o) (col + Z.of_nat i * dc o) = None ->
       gapFree gm row col o i) /\
  (Later.canPlace (gridMap st_abc) 15 15 "CZZ" 7 8 down true = false /\
   Later.canPlace (gridMap st_abc) 15 15 "CZZ" 7 8 down false = true) /\
  (forall rows cols st w,
     ((exists c, c ∈ candidates st w /\ acceptsGap true (gridMap st) rows cols w c = true) ->
      exists m, Later.findBestMove rows cols st w = Some m /\
                moveCandidate m ∈ candidates st w /\
                acceptsGap true (gridMap st) rows cols w (moveCandidate m) = true) /\
     ((forall c, c ∈ candidates st w -> acceptsGap true (gridMap st) rows cols w c = false) ->
      Later.findBestMove rows cols st w = Later.sweep rows cols st w false None /\
      ((exists c, c ∈ candidates st w /\ acceptsGap false (gridMap st) rows cols w c = true) ->
       exists m, Later.findBestMove rows cols st w = Some m /\
                 moveCandidate m ∈ candidates st w /\
                 acceptsGap false (gridMap st) rows cols w (moveCandidate m) = true)) /\
     ((forall c, c ∈ candidates st w -> acceptsGap false (gridMap st) rows cols w c = false) ->
      Later.findBestMove rows cols st w = None)) /\
  Later.sweep 15 15 st_abc (W "CZZ") true None = None /\
  Later.findBestMove 15 15 st_abc (W "CZZ") = Some (Later.mkMove 7 8 down 5) /\
  Later.generateLayout [W "ABC"; W "AXX"; W "CZZ"] 15 15 =
    Some [mkPlacedWord (W "ABC") 7 6 across None;
          mkPlacedWord (W "AXX") 7 6 down None;
          mkPlacedWord (W "CZZ") 7 8 down None] /\
  (forall gm rows cols w row col o,
     canPlace gm rows cols w row col o = Later.canPlace gm rows cols w row col o true) /\
  generateLayout [W "ABC"; W "AXX"; W "CZZ"] 15 15 =
    Some [mkPlacedWord (W "ABC") 7 6 across None;
          mkPlacedWord (W "AXX") 7 6 down None] /\
  ~ retriesRelaxed 15 15 st_abc (W "CZZ").
Proof.
  split_and!.
  - intros gm rows cols w row col o. apply canPlaceGap_strict.
  - by vm_compute.
  - by vm_compute.
  - intros rows cols st w.
    pose proof (findBestMove_selects rows cols st w) as Hsel.
    pose proof (findBestMove_sweeps rows cols st w) as Hsw.
    pose proof (consider_closest true (gridMap st) rows cols w (candidates st w)) as Hs.
    rewrite <- sweep_candidates in Hs.
    split_and!.
    + intros (c & Hc & Hacc).
      destruct (Later.sweep rows cols st w true None) as [m|].
      * exists m. split; [done|]. by apply closestIn_elem in Hs.
      * by rewrite (Hs c Hc) in Hacc.
    + intros Hnone.
      assert (Later.sweep rows cols st w true None = None) as Hstrict.
      { destruct (Later.sweep rows cols st w true None) as [m|]; [|done].
        apply closestIn_elem in Hs as [Hin Hacc]. by rewrite (Hnone _ Hin) in Hacc. }
      rewrite Hstrict in Hsw. split; [done|].
      intros (c & Hc & Hacc).
      pose proof (consider_closest false (gridMap st) rows cols w (candidates st w)) as Hr.
      rewrite <- sweep_candidates, <- Hsw in Hr.
      destruct (Later.findBestMove rows cols st w) as [m|].
      * exists m. split; [done|]. by apply closestIn_elem in Hr.
      * by rewrite (Hr c Hc) in Hacc.
    + intros Hnone. unfold selectsClosest in Hsel.
      destruct (Later.findBestMove rows cols st w) as [m|]; [|done].
      destruct Hsel as (strict & [Hin Hacc]%closestIn_elem & _).
      destruct strict; [apply acceptsGap_relax in Hacc|]; by rewrite (Hnone _ Hin) in Hacc.
  - by vm_compute.
  - by vm_compute.
  - by vm_compute.
  - intros gm rows cols w row col o. apply canPlace_strict.
  - apply findPlacement_no_retry.
  - apply findPlacement_no_retry.
Qed.

(** ** Bounds *)

(** X6. Whatever the grid, [validatePlacement] returns false, before it
    reads a cell, for a placement some letter of which falls outside the
    grid. *)
Lemma validatePlacement_rejects_out_of_grid g w row col o rows cols :
  ~ extentInGrid rows cols w row col o ->
  validatePlacement g w row col o rows cols = Some false.
Proof.
  intros Hext. unfold validatePlacement.
  destruct ((row <? 0) || (col <? 0)) eqn:H0; [done|].
  destruct (row + (wlen w - 1) * dr o >=? rows) eqn:H1; [done|].
  destruct (col + (wlen w - 1) * dc o >=? cols) eqn:H2; [done|].
  exfalso. apply Hext. intros i Hi.
  apply orb_false_iff in H0 as [Hr Hc].
  unfold inGrid, wlen in *. unfold dr, dc in *.
  destruct o; simpl in *; repeat case_decide; try done;
    apply andb_true_iff; split; try (repeat (apply andb_true_iff; split)); lia.
Qed.

(** C3. The auto-layout validator accepts a placement outside the grid:
    on a grid of 5 rows and 2 columns, with ABCDE placed across from row 0,
    column 0, it accepts EXY down from row 0, column 4, and the layout
    commits it there; the interactive validator rejects that placement. *)
Theorem canPlace_accepts_column_outside_grid :
  canPlace (gridMap st_long) 5 2 "EXY" 0 4 down = true /\
  ~ extentInGrid 5 2 "EXY" 0 4 down /\
  generateLayout [W "ABCDE"; W "EXY"] 5 2 =
    Some [mkPlacedWord (W "ABCDE") 0 0 across None;
          mkPlacedWord (W "EXY") 0 4 down None] /\
  forall g, validatePlacement g "EXY" 0 4 down 5 2 = Some false.
Proof.
  split_and!; [done| |done|done].
  intros H. by specialize (H 0%nat ltac:(simpl; lia)).
Qed.

(** ** The grid model: cells *)

Lemma getCell_updCell f r c g r' c' :
  0 <= r -> 0 <= c ->
  getCell (updCell f r c g) r' c' =
  if decide ((r', c') = (r, c)) then f <$> getCell g r' c' else getCell g r' c'.
Proof.
  intros Hr Hc. unfold getCell, updCell.
  destruct ((0 <=? r') && (0 <=? c')) eqn:E; [|by case_decide].
  apply andb_true_iff in E as [E1 E2]. apply Z.leb_le in E1, E2.
  case_decide as Heq.
  - injection Heq as -> ->. rewrite list_lookup_alter_eq.
    destruct (g !! Z.to_nat r) as [rw|]; simpl; [|done].
    by rewrite list_lookup_alter_eq.
  - destruct (decide (r' = r)) as [->|Hne].
    + rewrite list_lookup_alter_eq.
      destruct (g !! Z.to_nat r) as [rw|]; simpl; [|done].
      rewrite list_lookup_alter_ne; [done|].
      intros Hc'. apply Heq. f_equal. lia.
    + rewrite list_lookup_alter_ne; [done|lia].
Qed.

Lemma getCell_createEmptyGrid rows cols r c :
  getCell (createEmptyGrid rows cols) r c =
  if inGrid rows cols r c then Some (emptyCell r c) else None.
Proof.
  unfold getCell, createEmptyGrid, inGrid.
  destruct (0 <=? r) eqn:Hr; simpl; [|done].
  destruct (0 <=? c) eqn:Hc; simpl; [|by rewrite andb_false_r].
  apply Z.leb_le in Hr, Hc. rewrite andb_true_r, list_lookup_fmap.
  destruct (r <? rows) eqn:Hr'; simpl.
  - apply Z.ltb_lt in Hr'. rewrite lookup_seqZ_lt by lia. simpl.
    rewrite list_lookup_fmap.
    destruct (c <? cols) eqn:Hc'.
    + apply Z.ltb_lt in Hc'. rewrite lookup_seqZ_lt by lia. simpl.
      do 2 f_equal; lia.
    + apply Z.ltb_ge in Hc'. by rewrite lookup_seqZ_ge by lia.
  - apply Z.ltb_ge in Hr'. by rewrite lookup_seqZ_ge by lia.
Qed.

Lemma inGrid_nonneg rows cols r c : inGrid rows cols r c = true -> 0 <= r /\ 0 <= c.
Proof. unfold inGrid. rewrite !andb_true_iff, !Z.leb_le. tauto. Qed.

(** ** The letter pass *)

Lemma placeLetter_getCell rows cols pw g ic r c :
  getCell (placeLetter rows cols pw g ic) r c =
  if hit rows cols (r, c) pw ic
  then writeLetter (id pw) ic.2 <$> getCell g r c
  else getCell g r c.
Proof.
  unfold placeLetter, hit, cellOf. cbn [fst snd].
  destruct (inGrid rows cols _ _) eqn:Hin; simpl; [|done].
  apply inGrid_nonneg in Hin as [? ?].
  rewrite getCell_updCell by done.
  case_decide as E; case_bool_decide as E'; congruence.
Qed.

Lemma cellAfter_app ws1 ws2 cell :
  cellAfter (ws1 ++ ws2) cell = cellAfter ws2 (cellAfter ws1 cell).
Proof. apply foldl_app. Qed.

Lemma foldl_placeLetter_getCell rows cols pw r c l : forall g,
  getCell (foldl (placeLetter rows cols pw) g l) r c =
  cellAfter ((fun ic : nat * ascii => (id pw, ic.2)) <$> List.filter (hit rows cols (r, c) pw) l)
    <$> getCell g r c.
Proof.
  induction l as [|ic l IH]; intros g; simpl.
  - by destruct (getCell g r c).
  - rewrite IH, placeLetter_getCell.
    destruct (hit rows cols (r, c) pw ic); [|done].
    by destruct (getCell g r c).
Qed.

Lemma letterPass_getCell rows cols r c vals : forall g,
  getCell (foldl (placeLetters rows cols) g vals) r c =
  cellAfter (cellWrites rows cols (r, c) vals) <$> getCell g r c.
Proof.
  induction vals as [|pw vals IH]; intros g; simpl.
  - by destruct (getCell g r c).
  - rewrite IH. unfold placeLetters. rewrite foldl_placeLetter_getCell.
    destruct (getCell g r c); simpl; [|done]. by rewrite cellAfter_app.
Qed.

Lemma cellAfter_snoc ws w cell :
  cellAfter (ws ++ [w]) cell = writeLetter w.1 w.2 (cellAfter ws cell).
Proof. by rewrite cellAfter_app. Qed.

Lemma cellAfter_char ws r c :
  char (cellAfter ws (emptyCell r c)) = snd <$> last ws.
Proof.
  induction ws as [|w ws _] using rev_ind; [done|].
  by rewrite cellAfter_snoc, last_snoc.
Qed.

(** The flag of a cell is set exactly when two of the letters written to
    it differ. *)
Lemma cellAfter_isError ws r c :
  isError (cellAfter ws (emptyCell r c)) = true <->
  exists x y, x ∈ ws.*2 /\ y ∈ ws.*2 /\ x <> y.
Proof.
  induction ws as [|w ws IH] using rev_ind.
  - simpl. split; [done|]. intros (x & y & Hx & _). by apply elem_of_nil in Hx.
  - rewrite cellAfter_snoc. unfold writeLetter at 1; simpl.
    rewrite cellAfter_char, fmap_app. simpl.
    destruct (last ws) as [e|] eqn:Hlast; simpl.
    + assert (e.2 ∈ ws.*2) as He.
      { apply list_elem_of_fmap. exists e. split; [done|]. by apply last_Some_elem_of. }
      case_decide as Heq.
      * rewrite IH. split.
        -- intros (x & y & Hx & Hy & Hne). exists x, y.
           split_and!; [apply elem_of_app; by left..|done].
        -- intros (x & y & Hx & Hy & Hne).
           apply elem_of_app in Hx as [Hx|Hx], Hy as [Hy|Hy];
             rewrite ?list_elem_of_singleton in *; subst.
           ++ by exists x, y.
           ++ exists x, e.2. split_and!; [done..|congruence].
           ++ exists e.2, y. split_and!; [done..|congruence].
           ++ done.
      * split; [|done]. intros _. exists e.2, w.2.
        split_and!; [apply elem_of_app; by left| |done].
        apply elem_of_app; right. by apply list_elem_of_singleton.
    + apply last_None in Hlast as ->. simpl. split; [done|].
      intros (x & y & Hx & Hy & Hne).
      apply list_elem_of_singleton in Hx, Hy. congruence.
Qed.

Lemma elem_of_cellWrites rows cols rc vals x :
  x ∈ (cellWrites rows cols rc vals).*2 <->
  inGrid rows cols rc.1 rc.2 = true /\ exists pw, pw ∈ vals /\ assigns pw rc x.
Proof.
  unfold cellWrites. rewrite list_elem_of_fmap. split.
  - intros ([wid ch] & -> & H). apply list_elem_of_bind in H as (pw & H & Hpw).
    apply list_elem_of_fmap in H as ([i ch'] & [= -> ->] & H).
    apply list_elem_of_In, filter_In in H as [Hl Hhit]. apply list_elem_of_In in Hl.
    unfold hit in Hhit. apply andb_true_iff in Hhit as [Hin Heq].
    apply bool_decide_eq_true in Heq. simpl in *. subst rc.
    split; [done|]. exists pw. split; [done|]. exists i. by rewrite <- elem_of_letters.
  - intros (Hin & pw & Hpw & i & Hi & Hc). exists (id pw, x). split; [done|].
    apply list_elem_of_bind. exists pw. split; [|done].
    apply list_elem_of_fmap. exists (i, x). split; [done|].
    apply list_elem_of_In, filter_In. split; [by apply list_elem_of_In, elem_of_letters|].
    unfold hit. cbn [fst snd]. rewrite Hc, Hin. by apply bool_decide_eq_true.
Qed.

Lemma assigns_functional pw rc x y : assigns pw rc x -> assigns pw rc y -> x = y.
Proof.
  intros (i & Hi & Hc) (j & Hj & Hc'). rewrite <- Hc' in Hc.
  assert (i = j) as ->; [|congruence].
  unfold cellOf, dr, dc in Hc. injection Hc.
  destruct (orientation pw); simpl; lia.
Qed.

(** ** The numbering scan *)

Lemma elem_of_scanCells rows cols rc :
  rc ∈ scanCells rows cols <-> inGrid rows cols rc.1 rc.2 = true.
Proof.
  unfold scanCells, inGrid. rewrite list_elem_of_bind.
  rewrite !andb_true_iff, !Z.leb_le, !Z.ltb_lt. split.
  - intros (r & Hc & Hr). apply list_elem_of_fmap in Hc as (c & -> & Hc).
    apply elem_of_seqZ in Hr, Hc. simpl. lia.
  - intros H. destruct rc as [r c]. simpl in H. exists r. split.
    + apply list_elem_of_fmap. exists c. split; [done|]. apply elem_of_seqZ. lia.
    + apply elem_of_seqZ. lia.
Qed.

Lemma seqZ_sorted m n : StronglySorted Z.lt (seqZ m n).
Proof.
  destruct (decide (0 <= n)) as [Hn|Hn]; [|rewrite seqZ_nil by lia; constructor].
  rewrite <- (Z2Nat.id n) by done. clear Hn.
  induction (Z.to_nat n) as [|k IH]; [constructor|].
  rewrite seqZ_S. apply StronglySorted_app_2; [|done|repeat constructor].
  intros x y Hx Hy. apply elem_of_seqZ in Hx. apply list_elem_of_singleton in Hy. lia.
Qed.

Lemma scanCells_sorted rows cols : StronglySorted rowMajorLt (scanCells rows cols).
Proof.
  unfold scanCells.
  assert (forall rs, StronglySorted Z.lt rs ->
            StronglySorted rowMajorLt (rs ≫= fun r => (fun c => (r, c)) <$> seqZ 0 cols)) as H.
  { induction 1 as [|r rs Hs IH Hall]; [constructor|].
    rewrite bind_cons. apply StronglySorted_app_2; [| |done].
    - intros x y Hx Hy. apply list_elem_of_fmap in Hx as (c & -> & _).
      apply list_elem_of_bind in Hy as (r' & Hy & Hr').
      apply list_elem_of_fmap in Hy as (c' & -> & _).
      rewrite Forall_forall in Hall. left. simpl. by apply Hall.
    - eapply (StronglySorted_fmap _ Z.lt); [|apply seqZ_sorted].
      intros c c' Hlt. right. simpl. done. }
  apply H, seqZ_sorted.
Qed.

Lemma rowMajorLt_irrefl a : ~ rowMajorLt a a.
Proof. unfold rowMajorLt. lia. Qed.


Lemma scanCells_split rows cols pre rc post :
  scanCells rows cols = pre ++ rc :: post ->
  (rc ∉ pre) /\ (rc ∉ post) /\
  (forall x, x ∈ pre -> rowMajorLt x rc) /\ (forall x, x ∈ post -> rowMajorLt rc x) /\
  Forall (fun x => 0 <= x.1 /\ 0 <= x.2) (pre ++ rc :: post).
Proof.
  intros E. pose proof (scanCells_sorted rows cols) as Hs. rewrite E in Hs.
  assert (forall x, x ∈ pre -> rowMajorLt x rc) as Hpre.
  { intros x Hx. eapply StronglySorted_app_1_elem_of; [exact Hs|done|by left]. }
  assert (forall x, x ∈ post -> rowMajorLt rc x) as Hpost.
  { intros x Hx. apply StronglySorted_app_1_r, StronglySorted_cons in Hs as [Hall _].
    rewrite Forall_forall in Hall. by apply Hall. }
  split_and!; [| |done..|].
  - intros Hin. by apply Hpre, rowMajorLt_irrefl in Hin.
  - intros Hin. by apply Hpost, rowMajorLt_irrefl in Hin.
  - rewrite <- E. apply Forall_forall. intros x Hx.
    apply elem_of_scanCells, inGrid_nonneg in Hx. done.
Qed.

Lemma setNumber_idemp n pw : setNumber n (setNumber n pw) = setNumber n pw.
Proof. done. Qed.

Lemma numberWrites n ls l : forall s0 : Store,
  foldl (fun s l => storeSet s l (setNumber n (s l))) s0 ls l =
  if decide (l ∈ ls) then setNumber n (s0 l) else s0 l.
Proof.
  induction ls as [|a ls IH]; intros s0; simpl; [done|].
  rewrite IH. unfold storeSet.
  destruct (decide (l = a)) as [->|Hne].
  - rewrite (decide_True (P := a ∈ a :: ls)) by by left. by case_decide.
  - destruct (decide (l ∈ ls)) as [Hin|Hin].
    + rewrite (decide_True (P := l ∈ a :: ls)) by by right. done.
    + rewrite (decide_False (P := l ∈ a :: ls)); [done|].
      intros [?|?]%elem_of_cons; done.
Qed.

Section Numbering.
Variables (s : Store) (refs : list loc).

Lemma startsAt_same s' r c l : sameButNumber s s' -> startsAt s' r c l = startsAt s r c l.
Proof. intros H. unfold startsAt. by destruct (H l) as (_ & -> & -> & _). Qed.

Lemma filter_startsAt_same s' r c :
  sameButNumber s s' ->
  List.filter (startsAt s' r c) refs = List.filter (startsAt s r c) refs.
Proof. intros H. apply filter_ext. intros l. by apply startsAt_same. Qed.

Lemma filter_nil_isOrigin rc :
  List.filter (startsAt s rc.1 rc.2) refs = [] <-> isOrigin s refs rc = false.
Proof.
  unfold isOrigin. induction refs as [|l ls IH]; simpl; [done|].
  destruct (startsAt s rc.1 rc.2 l); simpl; [split; done|apply IH].
Qed.

(** What one step of the scan does, in terms of the store [s] that the
    call was given. *)
Lemma numberCell_skip st rc :
  sameButNumber s (ns_store st) -> isOrigin s refs rc = false ->
  numberCell refs st rc = st.
Proof.
  intros Hs Ho. unfold numberCell. rewrite filter_startsAt_same by done.
  apply filter_nil_isOrigin in Ho. by rewrite Ho.
Qed.

Lemma numberCell_origin st rc :
  sameButNumber s (ns_store st) -> isOrigin s refs rc = true ->
  numberCell refs st rc =
  mkNumState
    (updCell (setClueNumber (ns_next st)) rc.1 rc.2 (ns_grid st))
    (ns_clues st ++ map (fun l => clueOf (ns_next st) (s l))
                        (List.filter (startsAt s rc.1 rc.2) refs))
    (foldl (fun s' l => storeSet s' l (setNumber (ns_next st) (s' l))) (ns_store st)
           (List.filter (startsAt s rc.1 rc.2) refs))
    (ns_next st + 1).
Proof.
  intros Hs Ho. unfold numberCell. rewrite filter_startsAt_same by done.
  destruct (List.filter (startsAt s rc.1 rc.2) refs) as [|l ls] eqn:E.
  - apply filter_nil_isOrigin in E. congruence.
  - f_equal. f_equal. apply map_ext_in. intros l' Hl'.
    unfold clueOf. destruct (Hs l') as (-> & _ & _ & ->). done.
Qed.

Lemma numberCell_store st rc l :
  sameButNumber s (ns_store st) ->
  ns_store (numberCell refs st rc) l =
  if decide (l ∈ refs /\ (row (s l), col (s l)) = rc)
  then setNumber (ns_next st) (ns_store st l) else ns_store st l.
Proof.
  intros Hs. destruct (isOrigin s refs rc) eqn:Ho.
  - rewrite numberCell_origin by done. simpl. rewrite numberWrites.
    apply decide_ext. rewrite list_elem_of_In, filter_In, <- list_elem_of_In.
    unfold startsAt. rewrite andb_true_iff, !bool_decide_eq_true.
    destruct rc as [r c]; simpl. split; intros (? & H); split; try done.
    + by destruct H as [-> ->].
    + by injection H.
  - rewrite numberCell_skip by done. rewrite decide_False; [done|].
    intros [Hl Heq]. unfold isOrigin in Ho.
    assert (existsb (startsAt s rc.1 rc.2) refs = true); [|congruence].
    apply existsb_exists. exists l. split; [by apply list_elem_of_In|].
    unfold startsAt. rewrite <- Heq. simpl. by rewrite !bool_decide_eq_true_2.
Qed.

Lemma numberCell_same st rc :
  sameButNumber s (ns_store st) -> sameButNumber s (ns_store (numberCell refs st rc)).
Proof.
  intros Hs l. rewrite numberCell_store by done. case_decide; [|apply Hs].
  simpl. apply Hs.
Qed.

Lemma numberCell_next st rc :
  sameButNumber s (ns_store st) ->
  ns_next (numberCell refs st rc) = ns_next st + countOrigins s refs [rc].
Proof.
  intros Hs. unfold countOrigins. simpl. destruct (isOrigin s refs rc) eqn:Ho.
  - by rewrite numberCell_origin.
  - rewrite numberCell_skip by done. simpl. lia.
Qed.

Lemma numberCell_getCell st rc r c :
  sameButNumber s (ns_store st) -> 0 <= rc.1 -> 0 <= rc.2 ->
  getCell (ns_grid (numberCell refs st rc)) r c =
  if isOrigin s refs rc && bool_decide ((r, c) = rc)
  then setClueNumber (ns_next st) <$> getCell (ns_grid st) r c
  else getCell (ns_grid st) r c.
Proof.
  intros Hs H1 H2. destruct (isOrigin s refs rc) eqn:Ho; simpl.
  - rewrite numberCell_origin by done. simpl. rewrite getCell_updCell by done.
    destruct rc as [r' c']. simpl. case_decide; case_bool_decide; congruence.
  - by rewrite numberCell_skip.
Qed.

Lemma countOrigins_app cs1 cs2 :
  countOrigins s refs (cs1 ++ cs2) = countOrigins s refs cs1 + countOrigins s refs cs2.
Proof. unfold countOrigins. rewrite List.filter_app, length_app. lia. Qed.


(** The scan over a list of cells. *)
Lemma scan_same cs : forall st,
  sameButNumber s (ns_store st) -> sameButNumber s (ns_store (foldl (numberCell refs) st cs)).
Proof.
  induction cs as [|rc cs IH]; intros st Hs; simpl; [done|].
  by apply IH, numberCell_same.
Qed.

Lemma scan_next cs : forall st,
  sameButNumber s (ns_store st) ->
  ns_next (foldl (numberCell refs) st cs) = ns_next st + countOrigins s refs cs.
Proof.
  induction cs as [|rc cs IH]; intros st Hs; simpl.
  - unfold countOrigins. simpl. lia.
  - rewrite IH by by apply numberCell_same.
    rewrite numberCell_next by done.
    change (rc :: cs) with ([rc] ++ cs). rewrite countOrigins_app. lia.
Qed.

Lemma scan_getCell_frame cs r c : forall st,
  sameButNumber s (ns_store st) -> Forall (fun x => 0 <= x.1 /\ 0 <= x.2) cs ->
  (r, c) ∉ cs ->
  getCell (ns_grid (foldl (numberCell refs) st cs)) r c = getCell (ns_grid st) r c.
Proof.
  induction cs as [|rc cs IH]; intros st Hs Hnn Hnin; simpl; [done|].
  apply Forall_cons in Hnn as [[? ?] Hnn]. apply not_elem_of_cons in Hnin as [Hne Hnin].
  rewrite IH by (done || by apply numberCell_same).
  rewrite numberCell_getCell by done.
  rewrite bool_decide_eq_false_2 by done. by rewrite andb_false_r.
Qed.

Lemma scan_getCell_strip cs r c : forall st,
  sameButNumber s (ns_store st) -> Forall (fun x => 0 <= x.1 /\ 0 <= x.2) cs ->
  stripNumber <$> getCell (ns_grid (foldl (numberCell refs) st cs)) r c =
  stripNumber <$> getCell (ns_grid st) r c.
Proof.
  induction cs as [|rc cs IH]; intros st Hs Hnn; simpl; [done|].
  apply Forall_cons in Hnn as [[? ?] Hnn].
  rewrite IH by (done || by apply numberCell_same).
  rewrite numberCell_getCell by done.
  destruct (isOrigin s refs rc && bool_decide ((r, c) = rc)); [|done].
  by destruct (getCell (ns_grid st) r c).
Qed.

Lemma scan_store_frame cs l : forall st,
  sameButNumber s (ns_store st) ->
  l ∉ refs \/ (row (s l), col (s l)) ∉ cs ->
  ns_store (foldl (numberCell refs) st cs) l = ns_store st l.
Proof.
  induction cs as [|rc cs IH]; intros st Hs Hfr; simpl; [done|].
  rewrite IH; [|by apply numberCell_same|].
  - rewrite numberCell_store by done. rewrite decide_False; [done|].
    intros [Hl Heq]. destruct Hfr as [?|Hnin]; [done|]. apply Hnin. rewrite Heq. by left.
  - destruct Hfr as [?|Hnin]; [by left|right].
    by apply not_elem_of_cons in Hnin as [_ ?].
Qed.

(** The cell [rc] and the placements that start there, after a scan that
    visits [rc] once. *)
Lemma scan_at pre rc post st :
  sameButNumber s (ns_store st) ->
  Forall (fun x => 0 <= x.1 /\ 0 <= x.2) (pre ++ rc :: post) ->
  rc ∉ pre -> rc ∉ post ->
  let st' := foldl (numberCell refs) st (pre ++ rc :: post) in
  let n := ns_next st + countOrigins s refs pre in
  getCell (ns_grid st') rc.1 rc.2 =
    (if isOrigin s refs rc
     then setClueNumber n <$> getCell (ns_grid st) rc.1 rc.2
     else getCell (ns_grid st) rc.1 rc.2) /\
  forall l, l ∈ refs -> (row (s l), col (s l)) = rc ->
            ns_store st' l = setNumber n (ns_store st l).
Proof.
  intros Hs Hnn Hpre Hpost. cbn zeta. rewrite foldl_app. simpl.
  apply Forall_app in Hnn as [Hnn1 Hnn2]. apply Forall_cons in Hnn2 as [[? ?] Hnn2].
  pose proof (scan_same pre st Hs) as Hs1.
  pose proof (scan_next pre st Hs) as Hn1.
  set (st1 := foldl (numberCell refs) st pre) in *.
  pose proof (numberCell_same st1 rc Hs1) as Hs2.
  split.
  - destruct rc as [r c]. simpl in *.
    rewrite scan_getCell_frame by done.
    rewrite numberCell_getCell by done.
    rewrite bool_decide_eq_true_2 by done. rewrite andb_true_r.
    rewrite Hn1. unfold st1. by rewrite scan_getCell_frame.
  - intros l Hl Heq.
    rewrite scan_store_frame by (done || right; by rewrite Heq).
    rewrite numberCell_store by done. rewrite decide_True by done.
    rewrite Hn1. unfold st1.
    by rewrite scan_store_frame by (done || right; by rewrite Heq).
Qed.
End Numbering.

(** ** The grid model: [calculateGrid] *)

Lemma sameButNumber_refl s : sameButNumber s s.
Proof. by intros l. Qed.


(** The cell of the letter pass, for a cell of the grid. *)
Lemma letterPass_cell (s : Store) (refs : list loc) rows cols r c :
  inGrid rows cols r c = true ->
  getCell (foldl (placeLetters rows cols) (createEmptyGrid rows cols) (s <$> refs)) r c =
  Some (cellAfter (cellWrites rows cols (r, c) (s <$> refs)) (emptyCell r c)).
Proof.
  intros Hin. by rewrite letterPass_getCell, getCell_createEmptyGrid, Hin.
Qed.

Lemma calculateGrid_cell (s : Store) (refs : list loc) rows cols r c :
  inGrid rows cols r c = true ->
  exists cell,
    getCell (grid (calculateGrid s refs rows cols)) r c = Some cell /\
    stripNumber cell =
    stripNumber (cellAfter (cellWrites rows cols (r, c) (s <$> refs)) (emptyCell r c)).
Proof.
  intros Hin. unfold calculateGrid. simpl.
  pose proof (scan_getCell_strip s refs (scanCells rows cols) r c
    (mkNumState (foldl (placeLetters rows cols) (createEmptyGrid rows cols) (s <$> refs)) [] s 1)
    (sameButNumber_refl s)) as H.
  simpl in H. rewrite letterPass_cell in H by done.
  assert (Forall (fun x : Z * Z => 0 <= x.1 /\ 0 <= x.2) (scanCells rows cols)) as Hnn.
  { apply Forall_forall. intros x Hx. by apply elem_of_scanCells, inGrid_nonneg in Hx. }
  specialize (H Hnn).
  destruct (getCell _ r c) as [cell|] eqn:E; simpl in H; [|done].
  exists cell. split; [done|]. congruence.
Qed.

Lemma calculateGrid_isError (s : Store) (refs : list loc) rows cols r c :
  inGrid rows cols r c = true ->
  exists cell,
    getCell (grid (calculateGrid s refs rows cols)) r c = Some cell /\
    (isError cell = true <->
     exists l1 l2 ch1 ch2,
       l1 ∈ refs /\ l2 ∈ refs /\ l1 <> l2 /\
       assigns (s l1) (r, c) ch1 /\ assigns (s l2) (r, c) ch2 /\ ch1 <> ch2).
Proof.
  intros Hin. destruct (calculateGrid_cell s refs rows cols r c Hin) as (cell & Hcell & Hstrip).
  exists cell. split; [done|].
  replace (isError cell) with (isError (stripNumber cell)) by done.
  rewrite Hstrip. simpl. rewrite cellAfter_isError. split.
  - intros (x & y & Hx & Hy & Hne).
    apply elem_of_cellWrites in Hx as (_ & pw1 & Hpw1 & Hx).
    apply elem_of_cellWrites in Hy as (_ & pw2 & Hpw2 & Hy).
    apply list_elem_of_fmap in Hpw1 as (l1 & -> & Hl1).
    apply list_elem_of_fmap in Hpw2 as (l2 & -> & Hl2).
    exists l1, l2, x, y. split_and!; [done..| |done|done|done].
    intros ->. apply Hne. by eapply assigns_functional.
  - intros (l1 & l2 & x & y & Hl1 & Hl2 & _ & Hx & Hy & Hne).
    exists x, y. split_and!; [| |done].
    + apply elem_of_cellWrites. split; [done|]. exists (s l1).
      split; [|done]. by apply list_elem_of_fmap_2.
    + apply elem_of_cellWrites. split; [done|]. exists (s l2).
      split; [|done]. by apply list_elem_of_fmap_2.
Qed.

(** C5. In the board that [calculateGrid] derives, the collision flag of a
    cell is set exactly when two placements assign different letters to
    the cell, and the flag is the same for every order of the placements
    in the list. *)
Theorem calculateGrid_collision (s : Store) (refs : list loc) (rows cols r c : Z) :
  inGrid rows cols r c = true ->
  exists cell,
    getCell (grid (calculateGrid s refs rows cols)) r c = Some cell /\
    (isError cell = true <->
     exists l1 l2 ch1 ch2,
       l1 ∈ refs /\ l2 ∈ refs /\ l1 <> l2 /\
       assigns (s l1) (r, c) ch1 /\ assigns (s l2) (r, c) ch2 /\ ch1 <> ch2) /\
    forall refs', refs' ≡ₚ refs ->
      exists cell',
        getCell (grid (calculateGrid s refs' rows cols)) r c = Some cell' /\
        isError cell' = isError cell.
Proof.
  intros Hin.
  destruct (calculateGrid_isError s refs rows cols r c Hin) as (cell & Hcell & Hiff).
  exists cell. split_and!; [done..|].
  intros refs' Hperm.
  destruct (calculateGrid_isError s refs' rows cols r c Hin) as (cell' & Hcell' & Hiff').
  exists cell'. split; [done|].
  assert (isError cell' = true <-> isError cell = true) as H.
  { rewrite Hiff, Hiff'. by setoid_rewrite Hperm. }
  destruct (isError cell'), (isError cell); try done.
  - symmetry. by apply H.
  - by apply H.
Qed.

Lemma calculateGrid_collision_witness :
  exists cell,
    getCell (grid (calculateGrid s_cat_dog [0; 1]%nat 3 3)) 0 0 = Some cell /\
    (isError cell = true <->
     exists l1 l2 ch1 ch2,
       l1 ∈ [0; 1]%nat /\ l2 ∈ [0; 1]%nat /\ l1 <> l2 /\
       assigns (s_cat_dog l1) (0, 0) ch1 /\ assigns (s_cat_dog l2) (0, 0) ch2 /\ ch1 <> ch2) /\
    forall refs', refs' ≡ₚ [0; 1]%nat ->
      exists cell',
        getCell (grid (calculateGrid s_cat_dog refs' 3 3)) 0 0 = Some cell' /\
        isError cell' = isError cell.
Proof.
  apply (calculateGrid_collision s_cat_dog [0; 1]%nat 3 3 0 0). reflexivity.
Defined.

(** ** Numbers of cells and of placements *)

Lemma calculateGrid_store (s : Store) (refs : list loc) rows cols pre rc post l :
  scanCells rows cols = pre ++ rc :: post ->
  l ∈ refs -> (row (s l), col (s l)) = rc ->
  store_after (calculateGrid s refs rows cols) l =
  setNumber (1 + countOrigins s refs pre) (s l).
Proof.
  intros E Hl Heq. unfold calculateGrid. simpl. rewrite E.
  destruct (scanCells_split _ _ _ _ _ E) as (Hpre & Hpost & _ & _ & Hnn).
  by eapply (scan_at s refs pre rc post (mkNumState _ [] s 1) (sameButNumber_refl s) Hnn Hpre Hpost).
Qed.

Lemma calculateGrid_store_frame (s : Store) (refs : list loc) rows cols l :
  l ∉ refs \/ inGrid rows cols (row (s l)) (col (s l)) = false ->
  store_after (calculateGrid s refs rows cols) l = s l.
Proof.
  intros H. unfold calculateGrid. simpl.
  rewrite (scan_store_frame s refs); [done|apply sameButNumber_refl|].
  destruct H as [?|Hout]; [by left|right].
  rewrite elem_of_scanCells. simpl. by rewrite Hout.
Qed.



Lemma isOrigin_same (s s' : Store) refs rc :
  sameButNumber s s' -> isOrigin s' refs rc = isOrigin s refs rc.
Proof.
  intros H. unfold isOrigin. induction refs as [|l ls IH]; simpl; [done|].
  by rewrite IH, (startsAt_same s s').
Qed.

Lemma countOrigins_same (s s' : Store) refs cs :
  sameButNumber s s' -> countOrigins s' refs cs = countOrigins s refs cs.
Proof.
  intros H. unfold countOrigins. do 2 f_equal. apply filter_ext.
  intros rc. by apply isOrigin_same.
Qed.

(** ** The clue list *)





Section Clues.
Variables (s : Store) (refs : list loc).


End Clues.





(** ** A second call *)

Lemma placeLetters_same rows cols g (pw pw' : PlacedWord) :
  data pw' = data pw -> row pw' = row pw -> col pw' = col pw ->
  orientation pw' = orientation pw ->
  placeLetters rows cols g pw' = placeLetters rows cols g pw.
Proof.
  destruct pw, pw'; simpl. intros -> -> -> ->. done.
Qed.

Lemma letterPass_same (s s' : Store) rows cols refs : forall g,
  sameButNumber s s' ->
  foldl (placeLetters rows cols) g (s' <$> refs) = foldl (placeLetters rows cols) g (s <$> refs).
Proof.
  induction refs as [|l ls IH]; intros g Hs; simpl; [done|].
  destruct (Hs l) as (? & ? & ? & ?).
  rewrite (placeLetters_same rows cols g (s l) (s' l)) by done. by apply IH.
Qed.

Lemma scan_lockstep (s : Store) refs cs : forall st1 st2,
  sameButNumber s (ns_store st1) -> sameButNumber s (ns_store st2) ->
  ns_grid st1 = ns_grid st2 -> ns_clues st1 = ns_clues st2 -> ns_next st1 = ns_next st2 ->
  ns_grid (foldl (numberCell refs) st1 cs) = ns_grid (foldl (numberCell refs) st2 cs) /\
  ns_clues (foldl (numberCell refs) st1 cs) = ns_clues (foldl (numberCell refs) st2 cs).
Proof.
  induction cs as [|rc cs IH]; intros st1 st2 Hs1 Hs2 Hg Hc Hn; simpl; [done|].
  apply IH; try by apply (numberCell_same s).
  all: destruct (isOrigin s refs rc) eqn:Ho;
    [rewrite !(numberCell_origin s) by done | rewrite !(numberCell_skip s) by done];
    cbn [ns_grid ns_clues ns_next]; by rewrite ?Hg, ?Hc, ?Hn.
Qed.

Lemma calculateGrid_same (s s' : Store) refs rows cols :
  sameButNumber s s' ->
  grid (calculateGrid s' refs rows cols) = grid (calculateGrid s refs rows cols) /\
  clues (calculateGrid s' refs rows cols) = clues (calculateGrid s refs rows cols).
Proof.
  intros Hs. unfold calculateGrid. simpl.
  rewrite (letterPass_same s s') by done.
  destruct (scan_lockstep s refs (scanCells rows cols)
    (mkNumState (foldl (placeLetters rows cols) (createEmptyGrid rows cols) (s <$> refs)) [] s' 1)
    (mkNumState (foldl (placeLetters rows cols) (createEmptyGrid rows cols) (s <$> refs)) [] s 1))
    as [-> ->]; done.
Qed.

Lemma calculateGrid_sameButNumber (s : Store) refs rows cols :
  sameButNumber s (store_after (calculateGrid s refs rows cols)).
Proof. apply scan_same, sameButNumber_refl. Qed.

(** C9. A call of [calculateGrid] on the placements that an earlier call
    with the same arguments has been through yields the same board (with
    its letters, flags, numbers and word identities) and the same clue
    list, and leaves the placements as the first call left them. *)
Theorem calculateGrid_deterministic (s : Store) (refs : list loc) (rows cols : Z) :
  let first := calculateGrid s refs rows cols in
  let second := calculateGrid (store_after first) refs rows cols in
  grid second = grid first /\
  clues second = clues first /\
  forall l, store_after second l = store_after first l.
Proof.
  cbn zeta. pose proof (calculateGrid_sameButNumber s refs rows cols) as Hs.
  destruct (calculateGrid_same s _ refs rows cols Hs) as [Hg Hc].
  split_and!; [done..|]. intros l.
  destruct (Hs l) as (_ & Hr & Hcl & _).
  destruct (decide (l ∈ refs)) as [Hl|Hl]; [|apply calculateGrid_store_frame; by left].
  destruct (inGrid rows cols (row (s l)) (col (s l))) eqn:Hin.
  - apply (elem_of_scanCells rows cols (row (s l), col (s l))) in Hin.
    apply list_elem_of_split in Hin as (pre & post & E).
    erewrite (calculateGrid_store (store_after _)); [|exact E|done|by rewrite Hr, Hcl].
    rewrite (countOrigins_same s) by done.
    erewrite (calculateGrid_store s) by done. done.
  - apply calculateGrid_store_frame. right. by rewrite Hr, Hcl.
Qed.


(** * Further properties of the grid model *)

(** ** The shape of the board *)

Lemma updCell_shape f r c (g : Grid) : length <$> updCell f r c g = length <$> g.
Proof.
  unfold updCell.
  rewrite (list_fmap_alter length _ (fun n : nat => n)).
  - by apply list_alter_id.
  - apply Forall_forall. intros rw _. apply length_alter.
Qed.

Lemma createEmptyGrid_shape rows cols :
  length <$> createEmptyGrid rows cols = replicate (Z.to_nat rows) (Z.to_nat cols).
Proof.
  unfold createEmptyGrid. rewrite <- list_fmap_compose.
  rewrite <- (length_seqZ 0 rows). apply const_fmap.
  intros i r _. simpl. by rewrite length_fmap, length_seqZ.
Qed.

Lemma letterPass_shape rows cols vals : forall g : Grid,
  length <$> foldl (placeLetters rows cols) g vals = length <$> g.
Proof.
  induction vals as [|pw vals IH]; intros g; simpl; [done|].
  rewrite IH. unfold placeLetters. generalize (letters (word pw)). intros l. revert g.
  induction l as [|ic l IHl]; intros g; simpl; [done|].
  rewrite IHl. unfold placeLetter. case_match; [apply updCell_shape|done].
Qed.

Lemma scan_shape refs cs : forall st,
  length <$> ns_grid (foldl (numberCell refs) st cs) = length <$> ns_grid st.
Proof.
  induction cs as [|rc cs IH]; intros st; simpl; [done|].
  rewrite IH. unfold numberCell. case_match; [done|]. simpl. apply updCell_shape.
Qed.

Lemma cellAfter_fields ws cell :
  cell_row (cellAfter ws cell) = cell_row cell /\
  cell_col (cellAfter ws cell) = cell_col cell /\
  isValid (cellAfter ws cell) = isValid cell /\
  wordIds (cellAfter ws cell) = wordIds cell ++ ws.*1.
Proof.
  induction ws as [|w ws IH] using rev_ind.
  - simpl. by rewrite app_nil_r.
  - rewrite cellAfter_snoc, fmap_app. simpl.
    destruct IH as (-> & -> & -> & ->). by rewrite app_assoc.
Qed.

Lemma calculateGrid_cell_outside (s : Store) (refs : list loc) rows cols r c :
  inGrid rows cols r c = false ->
  getCell (grid (calculateGrid s refs rows cols)) r c = None.
Proof.
  intros Hout. unfold calculateGrid. simpl.
  pose proof (scan_getCell_strip s refs (scanCells rows cols) r c
    (mkNumState (foldl (placeLetters rows cols) (createEmptyGrid rows cols) (s <$> refs)) [] s 1)
    (sameButNumber_refl s)) as H.
  cbn [ns_grid] in H.
  rewrite letterPass_getCell, getCell_createEmptyGrid, Hout in H. simpl in H.
  eapply fmap_None, H.
  apply Forall_forall. intros x Hx. by apply elem_of_scanCells, inGrid_nonneg in Hx.
Qed.

(** X1. The board of [calculateGrid] has [rows] rows of [cols] cells each;
    it has a cell exactly at the coordinates of the grid, and that cell
    carries its own coordinates and [isValid = true]. *)
Theorem calculateGrid_board_shape (s : Store) (refs : list loc) (rows cols : Z) :
  let g := grid (calculateGrid s refs rows cols) in
  length <$> g = replicate (Z.to_nat rows) (Z.to_nat cols) /\
  forall r c,
    match getCell g r c with
    | Some cell => inGrid rows cols r c = true /\
                   cell_row cell = r /\ cell_col cell = c /\ isValid cell = true
    | None => inGrid rows cols r c = false
    end.
Proof.
  cbn zeta. split.
  - unfold calculateGrid. cbn [grid].
    rewrite scan_shape. cbn [ns_grid].
    by rewrite letterPass_shape, createEmptyGrid_shape.
  - intros r c. destruct (inGrid rows cols r c) eqn:Hin.
    + destruct (calculateGrid_cell s refs rows cols r c Hin) as (cell & -> & Hstrip).
      destruct (cellAfter_fields (cellWrites rows cols (r, c) (s <$> refs)) (emptyCell r c))
        as (Hr & Hc & Hv & _).
      assert (cell_row cell = cell_row (stripNumber cell)) as -> by done.
      assert (cell_col cell = cell_col (stripNumber cell)) as -> by done.
      assert (isValid cell = isValid (stripNumber cell)) as -> by done.
      rewrite Hstrip. simpl. by rewrite Hr, Hc, Hv.
    + by rewrite calculateGrid_cell_outside.
Qed.

(** ** Letters and word identities of a cell *)

Lemma elem_of_cellWrites_pair rows cols rc vals wid ch :
  (wid, ch) ∈ cellWrites rows cols rc vals <->
  inGrid rows cols rc.1 rc.2 = true /\
  exists pw : PlacedWord, pw ∈ vals /\ id pw = wid /\ assigns pw rc ch.
Proof.
  unfold cellWrites. rewrite list_elem_of_bind. split.
  - intros (pw & H & Hpw).
    apply list_elem_of_fmap in H as ([i ch'] & [= -> ->] & H).
    apply list_elem_of_In, filter_In in H as [Hl Hhit]. apply list_elem_of_In in Hl.
    unfold hit in Hhit. apply andb_true_iff in Hhit as [Hin Heq].
    apply bool_decide_eq_true in Heq. cbn [fst snd] in *. subst rc.
    split; [done|]. exists pw. split_and!; [done..|]. exists i. by rewrite <- elem_of_letters.
  - intros (Hin & pw & Hpw & <- & i & Hi & Hc). exists pw. split; [|done].
    apply list_elem_of_fmap. exists (i, ch). split; [done|].
    apply list_elem_of_In, filter_In. split; [by apply list_elem_of_In, elem_of_letters|].
    unfold hit. cbn [fst snd]. rewrite Hc, Hin. by apply bool_decide_eq_true.
Qed.

Lemma cellWrites_app rows cols rc vals1 vals2 :
  cellWrites rows cols rc (vals1 ++ vals2) =
  cellWrites rows cols rc vals1 ++ cellWrites rows cols rc vals2.
Proof. unfold cellWrites. apply bind_app. Qed.

Lemma cellWrites_nil rows cols rc vals :
  (forall pw : PlacedWord, pw ∈ vals -> forall ch, ~ assigns pw rc ch) ->
  cellWrites rows cols rc vals = [].
Proof.
  intros H. destruct (cellWrites rows cols rc vals) as [|[wid ch] ws] eqn:E; [done|].
  assert ((wid, ch) ∈ cellWrites rows cols rc vals) as Hin by (rewrite E; by left).
  apply elem_of_cellWrites_pair in Hin as (_ & pw & Hpw & _ & Ha). by destruct (H pw Hpw ch).
Qed.

Lemma calculateGrid_cell_contents (s : Store) (refs : list loc) rows cols r c :
  inGrid rows cols r c = true ->
  exists cell,
    getCell (grid (calculateGrid s refs rows cols)) r c = Some cell /\
    char cell = snd <$> last (cellWrites rows cols (r, c) (s <$> refs)) /\
    wordIds cell = (cellWrites rows cols (r, c) (s <$> refs)).*1.
Proof.
  intros Hin. destruct (calculateGrid_cell s refs rows cols r c Hin) as (cell & Hcell & Hstrip).
  exists cell. split; [done|].
  assert (char cell = char (stripNumber cell)) as -> by done.
  assert (wordIds cell = wordIds (stripNumber cell)) as -> by done.
  rewrite Hstrip. simpl. rewrite cellAfter_char.
  by destruct (cellAfter_fields (cellWrites rows cols (r, c) (s <$> refs)) (emptyCell r c))
    as (_ & _ & _ & ->).
Qed.

(** X2. A cell of the board is empty exactly when no placement of the list
    covers it; otherwise it shows the letter of the last placement of the
    list that covers it. *)
Theorem calculateGrid_letter (s : Store) (refs : list loc) (rows cols r c : Z) :
  inGrid rows cols r c = true ->
  exists cell,
    getCell (grid (calculateGrid s refs rows cols)) r c = Some cell /\
    (char cell = None <-> forall l ch, l ∈ refs -> ~ assigns (s l) (r, c) ch) /\
    (forall ch, char cell = Some ch -> exists l, l ∈ refs /\ assigns (s l) (r, c) ch) /\
    (forall before l after ch,
       refs = before ++ l :: after -> assigns (s l) (r, c) ch ->
       (forall l' ch', l' ∈ after -> ~ assigns (s l') (r, c) ch') ->
       char cell = Some ch).
Proof.
  intros Hin.
  destruct (calculateGrid_cell_contents s refs rows cols r c Hin) as (cell & Hcell & Hchar & _).
  exists cell. split; [done|]. rewrite Hchar. split_and!.
  - rewrite fmap_None, last_None. split.
    + intros E l ch Hl Ha.
      assert ((id (s l), ch) ∈ cellWrites rows cols (r, c) (s <$> refs)) as H.
      { apply elem_of_cellWrites_pair. split; [done|]. exists (s l).
        split_and!; [by apply list_elem_of_fmap_2|done..]. }
      rewrite E in H. by apply elem_of_nil in H.
    + intros H. apply cellWrites_nil. intros pw Hpw ch Ha.
      apply list_elem_of_fmap in Hpw as (l & -> & Hl). by apply (H l ch).
  - intros ch Hlast. apply fmap_Some in Hlast as ([wid ch'] & Hlast & ->).
    apply last_Some_elem_of, elem_of_cellWrites_pair in Hlast as (_ & pw & Hpw & _ & Ha).
    apply list_elem_of_fmap in Hpw as (l & -> & Hl). by exists l.
  - intros before l after ch -> Ha Hafter.
    rewrite fmap_app, fmap_cons, cellWrites_app.
    change (s l :: (s <$> after)) with ([s l] ++ (s <$> after)).
    rewrite cellWrites_app, (cellWrites_nil _ _ _ (s <$> after)), app_nil_r.
    2: { intros pw Hpw ch' Ha'. apply list_elem_of_fmap in Hpw as (l' & -> & Hl').
         by apply (Hafter l' ch'). }
    destruct (last (cellWrites rows cols (r, c) [s l])) as [[wid ch']|] eqn:Hlast.
    + rewrite last_app, Hlast. simpl. f_equal.
      apply last_Some_elem_of, elem_of_cellWrites_pair in Hlast as (_ & pw & Hpw & _ & Ha').
      apply list_elem_of_singleton in Hpw as ->. by eapply assigns_functional.
    + apply last_None in Hlast.
      assert ((id (s l), ch) ∈ cellWrites rows cols (r, c) [s l]) as H.
      { apply elem_of_cellWrites_pair. split; [done|]. exists (s l).
        split_and!; [by apply list_elem_of_singleton|done..]. }
      rewrite Hlast in H. by apply elem_of_nil in H.
Qed.

Lemma calculateGrid_letter_witness :
  exists cell,
    getCell (grid (calculateGrid s_cat_dog [0; 1]%nat 3 3)) 0 0 = Some cell /\
    (char cell = None <-> forall l ch, l ∈ [0; 1]%nat -> ~ assigns (s_cat_dog l) (0, 0) ch) /\
    (forall ch, char cell = Some ch ->
                exists l, l ∈ [0; 1]%nat /\ assigns (s_cat_dog l) (0, 0) ch) /\
    (forall before l after ch,
       [0; 1]%nat = before ++ l :: after -> assigns (s_cat_dog l) (0, 0) ch ->
       (forall l' ch', l' ∈ after -> ~ assigns (s_cat_dog l') (0, 0) ch') ->
       char cell = Some ch).
Proof.
  apply (calculateGrid_letter s_cat_dog [0; 1]%nat 3 3 0 0). reflexivity.
Defined.

(** X3. The word identities of a cell are those of the placements of the
    list that cover the cell. *)
Theorem calculateGrid_wordIds (s : Store) (refs : list loc) (rows cols r c : Z) :
  inGrid rows cols r c = true ->
  exists cell,
    getCell (grid (calculateGrid s refs rows cols)) r c = Some cell /\
    forall wid, wid ∈ wordIds cell <->
                exists l ch, l ∈ refs /\ id (s l) = wid /\ assigns (s l) (r, c) ch.
Proof.
  intros Hin.
  destruct (calculateGrid_cell_contents s refs rows cols r c Hin) as (cell & Hcell & _ & Hids).
  exists cell. split; [done|]. intros wid. rewrite Hids, list_elem_of_fmap. split.
  - intros ([wid' ch] & -> & H).
    apply elem_of_cellWrites_pair in H as (_ & pw & Hpw & Hid & Ha).
    apply list_elem_of_fmap in Hpw as (l & -> & Hl). by exists l, ch.
  - intros (l & ch & Hl & Hid & Ha). exists (wid, ch). split; [done|].
    apply elem_of_cellWrites_pair. split; [done|]. exists (s l).
    split_and!; [by apply list_elem_of_fmap_2|done..].
Qed.

Lemma calculateGrid_wordIds_witness :
  exists cell,
    getCell (grid (calculateGrid s_cat_dog [0; 1]%nat 3 3)) 0 0 = Some cell /\
    forall wid, wid ∈ wordIds cell <->
                exists l ch, l ∈ [0; 1]%nat /\ id (s_cat_dog l) = wid /\
                             assigns (s_cat_dog l) (0, 0) ch.
Proof.
  apply (calculateGrid_wordIds s_cat_dog [0; 1]%nat 3 3 0 0). reflexivity.
Defined.

(** X4. With no placements, [calculateGrid] returns the empty grid and no
    clues, and writes nothing. *)
Theorem calculateGrid_no_placements (s : Store) (rows cols : Z) :
  grid (calculateGrid s [] rows cols) = createEmptyGrid rows cols /\
  clues (calculateGrid s [] rows cols) = [] /\
  (forall l, store_after (calculateGrid s [] rows cols) l = s l) /\
  forall r c cell, getCell (grid (calculateGrid s [] rows cols)) r c = Some cell ->
                   cell = emptyCell r c.
Proof.
  assert (forall cs st, foldl (numberCell []) st cs = st) as Hscan.
  { induction cs as [|rc cs IH]; intros st; simpl; [done|]. apply IH. }
  unfold calculateGrid. simpl. rewrite !Hscan. simpl. split_and!; [done..|].
  intros r c cell. rewrite getCell_createEmptyGrid. case_match; congruence.
Qed.

(** * Further properties of the interactive validator *)

Lemma collisionCheck_true g row col o l :
  collisionCheck g row col o l = Some true <->
  forall ic : nat * ascii, ic ∈ l ->
    exists cell,
      getCell g (row + Z.of_nat ic.1 * dr o) (col + Z.of_nat ic.1 * dc o) = Some cell /\
      (char cell = None \/ char cell = Some ic.2).
Proof.
  induction l as [|ic l IH]; simpl.
  - split; [|done]. intros _ ic Hic. by apply elem_of_nil in Hic.
  - destruct (getCell g _ _) as [cell|] eqn:Hcell.
    + destruct (char cell) as [e|] eqn:Hchar.
      * case_decide as He.
        -- rewrite IH. split.
           ++ intros H ic' [->|Hic']%elem_of_cons; [|by apply H].
              exists cell. split; [done|]. right. congruence.
           ++ intros H ic' Hic'. apply H. by right.
        -- split; [done|]. intros H.
           destruct (H ic) as (cell' & Hcell' & Hc); [by left|].
           rewrite Hcell in Hcell'. injection Hcell' as <-.
           rewrite Hchar in Hc. destruct Hc; congruence.
      * rewrite IH. split.
        -- intros H ic' [->|Hic']%elem_of_cons; [|by apply H].
           exists cell. split; [done|]. by left.
        -- intros H ic' Hic'. apply H. by right.
    + split; [done|]. intros H.
      destruct (H ic) as (cell' & Hcell' & _); [by left|]. congruence.
Qed.

Lemma collisionCheck_total g row col o l :
  (forall ic : nat * ascii, ic ∈ l ->
     is_Some (getCell g (row + Z.of_nat ic.1 * dr o) (col + Z.of_nat ic.1 * dc o))) ->
  is_Some (collisionCheck g row col o l).
Proof.
  induction l as [|ic l IH]; intros H; simpl; [done|].
  destruct (H ic) as [cell ->]; [by left|].
  assert (is_Some (collisionCheck g row col o l)) by (apply IH; intros; apply H; by right).
  destruct (char cell); [case_decide|]; done.
Qed.

(** The three bounds tests of [validatePlacement] put every letter in the
    grid. *)
Lemma bounds_extent rows cols w row col o i :
  0 <= row -> 0 <= col ->
  row + (wlen w - 1) * dr o < rows -> col + (wlen w - 1) * dc o < cols ->
  (i < String.length w)%nat ->
  inGrid rows cols (row + Z.of_nat i * dr o) (col + Z.of_nat i * dc o) = true.
Proof.
  unfold inGrid, wlen, dr, dc. intros Hr Hc Hr' Hc' Hi.
  rewrite !andb_true_iff, !Z.leb_le, !Z.ltb_lt.
  destruct o; simpl in *; repeat case_decide; try done; lia.
Qed.

Lemma letterAt_lt w i ch : letterAt w i = Some ch -> (i < String.length w)%nat.
Proof.
  unfold letterAt. intros H. apply lookup_lt_Some in H.
  rewrite <- length_letters. unfold letters. by rewrite length_imap.
Qed.

Lemma validatePlacement_true g w row col o rows cols :
  validatePlacement g w row col o rows cols = Some true <->
  0 <= row /\ 0 <= col /\
  row + (wlen w - 1) * dr o < rows /\ col + (wlen w - 1) * dc o < cols /\
  forall i ch, letterAt w i = Some ch ->
    exists cell,
      getCell g (row + Z.of_nat i * dr o) (col + Z.of_nat i * dc o) = Some cell /\
      (char cell = None \/ char cell = Some ch).
Proof.
  unfold validatePlacement.
  destruct ((row <? 0) || (col <? 0)) eqn:H0.
  { split; [done|]. intros (? & ? & _).
    apply orb_true_iff in H0 as [H0|H0]; apply Z.ltb_lt in H0; lia. }
  apply orb_false_iff in H0 as [Hr Hc]. apply Z.ltb_ge in Hr, Hc.
  destruct (row + (wlen w - 1) * dr o >=? rows) eqn:H1.
  { split; [done|]. intros (_ & _ & ? & _). apply Z.geb_le in H1. lia. }
  destruct (col + (wlen w - 1) * dc o >=? cols) eqn:H2.
  { split; [done|]. intros (_ & _ & _ & ? & _). apply Z.geb_le in H2. lia. }
  rewrite Z.geb_leb in H1, H2. apply Z.leb_gt in H1, H2.
  rewrite collisionCheck_true. split.
  - intros H. split_and!; [done..|]. intros i ch Hi.
    apply (H (i, ch)). by apply elem_of_letters.
  - intros (_ & _ & _ & _ & H) [i ch] Hic. apply H. by apply elem_of_letters.
Qed.

(** X5. [validatePlacement] returns true exactly when the placement passes
    its three bounds tests and every cell under a letter of the word is
    empty or shows that letter; on a board that [calculateGrid] derived
    for the same dimensions it always returns and never raises. *)
Theorem validatePlacement_decides (w : string) (row col : Z) (o : Orientation) (rows cols : Z) :
  (forall g,
     validatePlacement g w row col o rows cols = Some true <->
     0 <= row /\ 0 <= col /\
     row + (wlen w - 1) * dr o < rows /\ col + (wlen w - 1) * dc o < cols /\
     forall i ch, letterAt w i = Some ch ->
       exists cell,
         getCell g (row + Z.of_nat i * dr o) (col + Z.of_nat i * dc o) = Some cell /\
         (char cell = None \/ char cell = Some ch)) /\
  (forall (s : Store) (refs : list loc),
     is_Some (validatePlacement (grid (calculateGrid s refs rows cols)) w row col o rows cols)).
Proof.
  split; [intros g; apply validatePlacement_true|].
  intros s refs. unfold validatePlacement.
  destruct ((row <? 0) || (col <? 0)) eqn:H0; [done|].
  apply orb_false_iff in H0 as [Hr Hc]. apply Z.ltb_ge in Hr, Hc.
  destruct (row + (wlen w - 1) * dr o >=? rows) eqn:H1; [done|].
  destruct (col + (wlen w - 1) * dc o >=? cols) eqn:H2; [done|].
  rewrite Z.geb_leb in H1, H2. apply Z.leb_gt in H1, H2.
  apply collisionCheck_total. intros [i ch] Hic.
  apply elem_of_letters, letterAt_lt in Hic. cbn [fst].
  destruct (calculateGrid_cell s refs rows cols _ _
              (bounds_extent rows cols w row col o i Hr Hc H1 H2 Hic)) as (cell & -> & _).
  done.
Qed.

Lemma validatePlacement_rejects_out_of_grid_witness :
  validatePlacement [] "CAT" 0 1 across 3 3 = Some false.
Proof.
  apply validatePlacement_rejects_out_of_grid.
  intros H. by specialize (H 2%nat ltac:(simpl; lia)).
Defined.

(** * Manual placement *)

Lemma storeOf_seq ps : storeOf ps <$> seq 0 (length ps) = ps.
Proof.
  apply list_eq. intros i. rewrite list_lookup_fmap.
  destruct (decide (i < length ps)%nat) as [Hlt|Hge].
  - rewrite lookup_seq_lt by done. simpl.
    destruct (lookup_lt_is_Some_2 ps i Hlt) as [x Hx]. rewrite Hx. f_equal.
    unfold storeOf. by apply nth_lookup_Some.
  - rewrite lookup_seq_ge by lia. simpl. symmetry. apply lookup_ge_None. lia.
Qed.

Lemma boardOf_cell ps rows cols r c cell :
  getCell (grid (boardOf ps rows cols)) r c = Some cell ->
  inGrid rows cols r c = true /\
  stripNumber cell = stripNumber (cellAfter (cellWrites rows cols (r, c) ps) (emptyCell r c)).
Proof.
  unfold boardOf. intros Hcell.
  destruct (inGrid rows cols r c) eqn:Hin.
  - split; [done|].
    destruct (calculateGrid_cell (storeOf ps) (seq 0 (length ps)) rows cols r c Hin)
      as (cell' & Hcell' & Hstrip).
    rewrite storeOf_seq in Hstrip. congruence.
  - rewrite calculateGrid_cell_outside in Hcell by done. done.
Qed.

Lemma boardOf_cell_exists ps rows cols r c :
  inGrid rows cols r c = true -> is_Some (getCell (grid (boardOf ps rows cols)) r c).
Proof.
  intros Hin. unfold boardOf.
  by destruct (calculateGrid_cell (storeOf ps) (seq 0 (length ps)) rows cols r c Hin)
    as (cell & -> & _).
Qed.

(** Writes of one letter to a cell that is empty or shows that letter
    leave its flag as it is, and its letter if it had one. *)
Lemma cellAfter_compatible ws : forall cell,
  (forall w, w ∈ ws -> char cell = None \/ char cell = Some w.2) ->
  (forall w1 w2, w1 ∈ ws -> w2 ∈ ws -> w1.2 = w2.2) ->
  isError (cellAfter ws cell) = isError cell /\
  forall ch, char cell = Some ch -> char (cellAfter ws cell) = Some ch.
Proof.
  induction ws as [|w ws IH]; intros cell Hc Heq; [done|].
  change (cellAfter (w :: ws) cell) with (cellAfter ws (writeLetter w.1 w.2 cell)).
  destruct (IH (writeLetter w.1 w.2 cell)) as [He Hch].
  - intros w' Hw'. right. simpl. f_equal. apply Heq; [by left|by right].
  - intros w1 w2 H1 H2. apply Heq; by right.
  - assert (isError (writeLetter w.1 w.2 cell) = isError cell) as Hw.
    { simpl. destruct (Hc w) as [->| ->]; [by left|done|]. by rewrite decide_True. }
    split; [congruence|].
    intros ch Hcell. apply Hch. simpl.
    destruct (Hc w) as [H|H]; [by left|congruence..].
Qed.

(** X7. A click with an active word leaves the board free of new
    collisions: whether or not the word is placed, every cell keeps its
    collision flag, and every cell that showed a letter still shows it. *)
Theorem click_adds_no_collision (ps : list PlacedWord) (w : WordData) (r c : Z)
    (o : Orientation) (rows cols : Z) (ps' : list PlacedWord) :
  clickWithActiveWord (grid (boardOf ps rows cols)) w r c o rows cols ps = Some ps' ->
  forall r' c' cell,
    getCell (grid (boardOf ps rows cols)) r' c' = Some cell ->
    exists cell',
      getCell (grid (boardOf ps' rows cols)) r' c' = Some cell' /\
      isError cell' = isError cell /\
      forall ch, char cell = Some ch -> char cell' = Some ch.
Proof.
  unfold clickWithActiveWord. intros Hclick r' c' cell Hcell.
  destruct (validatePlacement _ _ _ _ _ _ _) as [[|]|] eqn:Hv; [| |done];
    injection Hclick as <-; [|by exists cell].
  apply validatePlacement_true in Hv as (_ & _ & _ & _ & Hv).
  destruct (boardOf_cell _ _ _ _ _ _ Hcell) as [Hin Hstrip].
  destruct (boardOf_cell_exists (handlePlaceWord ps w r c o) rows cols r' c' Hin)
    as [cell' Hcell'].
  exists cell'. split; [done|].
  destruct (boardOf_cell _ _ _ _ _ _ Hcell') as [_ Hstrip'].
  unfold handlePlaceWord in Hstrip'. rewrite cellWrites_app, cellAfter_app in Hstrip'.
  set (base := cellAfter (cellWrites rows cols (r', c') ps) (emptyCell r' c')) in *.
  assert (char cell = char base) as Hchar
    by (change (char (stripNumber cell) = char (stripNumber base)); by rewrite Hstrip).
  assert (isError cell = isError base) as Herr
    by (change (isError (stripNumber cell) = isError (stripNumber base)); by rewrite Hstrip).
  destruct (cellAfter_compatible
              (cellWrites rows cols (r', c') [mkPlacedWord w r c o None]) base) as [He Hch].
  - intros [wid ch] Hw.
    apply elem_of_cellWrites_pair in Hw as (_ & pw & ->%list_elem_of_singleton & _ & i & Hi & Hc).
    destruct (Hv i ch Hi) as (cell0 & Hcell0 & Hcompat).
    unfold cellOf in Hc. simpl in Hc. injection Hc as <- <-.
    rewrite Hcell in Hcell0. injection Hcell0 as <-. by rewrite <- Hchar.
  - intros [wid1 ch1] [wid2 ch2] H1 H2.
    apply elem_of_cellWrites_pair in H1 as (_ & pw1 & ->%list_elem_of_singleton & _ & Ha1).
    apply elem_of_cellWrites_pair in H2 as (_ & pw2 & ->%list_elem_of_singleton & _ & Ha2).
    simpl. by eapply assigns_functional.
  - split.
    + change (isError (stripNumber cell') = isError cell). rewrite Hstrip'.
      cbn [stripNumber isError]. congruence.
    + intros ch Hc. change (char (stripNumber cell') = Some ch). rewrite Hstrip'.
      cbn [stripNumber char]. apply Hch. congruence.
Qed.

Lemma click_adds_no_collision_witness :
  exists cell',
    getCell (grid (boardOf (handlePlaceWord [mkPlacedWord (W "DOG") 0 0 down None]
                                            (W "DAY") 0 0 across) 3 3)) 0 0 = Some cell' /\
    isError cell' = isError (mkCell 0 0 (Some "D"%char) (Some 1) ["DOG"%string] true false) /\
    forall ch,
      char (mkCell 0 0 (Some "D"%char) (Some 1) ["DOG"%string] true false) = Some ch ->
      char cell' = Some ch.
Proof.
  apply (click_adds_no_collision [mkPlacedWord (W "DOG") 0 0 down None] (W "DAY") 0 0 across
           3 3 _ eq_refl 0 0).
  reflexivity.
Defined.

(** * The handlers of the placement list *)

Lemma handleRemoveWord_fresh prev wordId :
  (forall p : PlacedWord, p ∈ prev -> id p <> wordId) -> handleRemoveWord prev wordId = prev.
Proof.
  unfold handleRemoveWord. induction prev as [|p prev IH]; intros H; simpl; [done|].
  rewrite bool_decide_eq_false_2 by (apply H; by left). simpl.
  f_equal. apply IH. intros q Hq. apply H. by right.
Qed.

(** X8. Removing a word that was just placed gives back the list as it
    was, provided no earlier placement has the identity of the word. *)
Theorem place_then_remove (prev : list PlacedWord) (w : WordData) (row col : Z)
    (orient : Orientation) :
  (forall p : PlacedWord, p ∈ prev -> id p <> id w) ->
  handleRemoveWord (handlePlaceWord prev w row col orient) (id w) = prev.
Proof.
  intros H. unfold handlePlaceWord, handleRemoveWord. rewrite List.filter_app. simpl.
  rewrite bool_decide_eq_true_2 by done. simpl. rewrite app_nil_r.
  by apply handleRemoveWord_fresh.
Qed.

Lemma place_then_remove_witness :
  handleRemoveWord (handlePlaceWord [mkPlacedWord (W "DOG") 1 1 down None] (W "CAT") 0 0 across)
                   (id (W "CAT"))
  = [mkPlacedWord (W "DOG") 1 1 down None].
Proof.
  apply place_then_remove. intros p ->%list_elem_of_singleton. done.
Defined.

Lemma find_map_id (wordId : string) (f : PlacedWord -> PlacedWord) (l : list PlacedWord) :
  (forall w, id (f w) = id w) ->
  List.find (fun w : PlacedWord => bool_decide (id w = wordId)) (map f l) =
  f <$> List.find (fun w : PlacedWord => bool_decide (id w = wordId)) l.
Proof.
  intros Hf. induction l as [|w l IH]; simpl; [done|].
  rewrite Hf. by destruct (bool_decide (id w = wordId)).
Qed.

Lemma handleRotateWord_map prev wordId found :
  List.find (fun w : PlacedWord => bool_decide (id w = wordId)) prev = Some found ->
  handleRotateWord prev wordId = map (setOrientation wordId (flip (orientation found))) prev.
Proof. intros H. unfold handleRotateWord. by rewrite H. Qed.

Lemma setOrientation_id wordId o w : id (setOrientation wordId o w) = id w.
Proof. unfold setOrientation. by case_bool_decide. Qed.

Lemma setOrientation_hit wordId o (w : PlacedWord) :
  id w = wordId ->
  setOrientation wordId o w = mkPlacedWord (data w) (row w) (col w) o (number w).
Proof. intros H. unfold setOrientation. by rewrite bool_decide_eq_true_2. Qed.

Lemma setOrientation_miss wordId o (w : PlacedWord) :
  id w <> wordId -> setOrientation wordId o w = w.
Proof. intros H. unfold setOrientation. by rewrite bool_decide_eq_false_2. Qed.

Lemma flip_flip o : flip (flip o) = o.
Proof. by destruct o. Qed.

Lemma NoDup_id_eq (l : list PlacedWord) (p q : PlacedWord) :
  NoDup ((fun w : PlacedWord => id w) <$> l) -> p ∈ l -> q ∈ l -> id p = id q -> p = q.
Proof.
  induction l as [|x l IH]; intros Hnd Hp Hq Heq; [by apply elem_of_nil in Hp|].
  rewrite fmap_cons in Hnd. apply NoDup_cons in Hnd as [Hx Hnd].
  apply elem_of_cons in Hp as [->|Hp], Hq as [->|Hq]; [done| | |by apply IH].
  - exfalso. apply Hx. rewrite Heq.
    by apply (list_elem_of_fmap_2 (fun w : PlacedWord => id w)).
  - exfalso. apply Hx. rewrite <- Heq.
    by apply (list_elem_of_fmap_2 (fun w : PlacedWord => id w)).
Qed.

(** X9. [handleRotateWord] keeps the length of the list and, of every
    placement, the identity, letters, clue, origin and number; placements
    with another identity are untouched; when the identity is not in the
    list, the list is returned as it is; otherwise the first placement
    with the identity has its orientation flipped. *)
Theorem handleRotateWord_keeps (prev : list PlacedWord) (wordId : string) :
  Forall2 (fun p q : PlacedWord =>
             data q = data p /\ row q = row p /\ col q = col p /\ number q = number p /\
             (id p <> wordId -> q = p))
          prev (handleRotateWord prev wordId) /\
  ((forall p : PlacedWord, p ∈ prev -> id p <> wordId) -> handleRotateWord prev wordId = prev) /\
  (forall before (p : PlacedWord) after,
     prev = before ++ p :: after -> id p = wordId ->
     (forall q : PlacedWord, q ∈ before -> id q <> wordId) ->
     handleRotateWord prev wordId !! length before =
     Some (mkPlacedWord (data p) (row p) (col p) (flip (orientation p)) (number p))).
Proof.
  split_and!.
  - unfold handleRotateWord. destruct (List.find _ prev) as [found|].
    + apply Forall2_fmap_r, Forall_Forall2_diag, Forall_forall. intros p _.
      unfold compose. cbn beta. case_bool_decide; simpl; done.
    + apply Forall_Forall2_diag, Forall_forall. by intros p _.
  - intros H. unfold handleRotateWord.
    destruct (List.find _ prev) as [found|] eqn:E; [|done].
    apply find_some in E as [Hin Hid]. apply list_elem_of_In in Hin.
    apply bool_decide_eq_true in Hid. by destruct (H found Hin).
  - intros before p after -> Hid Hbefore.
    assert (List.find (fun w : PlacedWord => bool_decide (id w = wordId)) (before ++ p :: after)
            = Some p) as Hfind.
    { clear -Hid Hbefore. induction before as [|x l IH]; simpl.
      - by rewrite bool_decide_eq_true_2.
      - rewrite bool_decide_eq_false_2 by (apply Hbefore; by left).
        apply IH. intros q Hq. apply Hbefore. by right. }
    rewrite (handleRotateWord_map _ _ _ Hfind), list_lookup_fmap.
    rewrite lookup_app_r, Nat.sub_diag by done. simpl.
    unfold setOrientation. by rewrite bool_decide_eq_true_2.
Qed.

(** X10. Where the identities of the placements are distinct, rotating a
    word twice gives back the list as it was. *)
Theorem handleRotateWord_twice (prev : list PlacedWord) (wordId : string) :
  NoDup ((fun w : PlacedWord => id w) <$> prev) ->
  handleRotateWord (handleRotateWord prev wordId) wordId = prev.
Proof.
  intros Hnd.
  destruct (List.find (fun w : PlacedWord => bool_decide (id w = wordId)) prev)
    as [found|] eqn:E.
  - rewrite (handleRotateWord_map _ _ _ E).
    rewrite (handleRotateWord_map _ _ (setOrientation wordId (flip (orientation found)) found)).
    2: { rewrite find_map_id by apply setOrientation_id. by rewrite E. }
    apply find_some in E as [Hin Hid]. apply list_elem_of_In in Hin.
    apply bool_decide_eq_true in Hid.
    rewrite map_map. rewrite <- (map_id prev) at 2. apply map_ext_in.
    intros p Hp. apply list_elem_of_In in Hp.
    assert (orientation (setOrientation wordId (flip (orientation found)) found)
            = flip (orientation found)) as ->
      by (unfold setOrientation; by rewrite bool_decide_eq_true_2).
    rewrite flip_flip.
    destruct (decide (id p = wordId)) as [Hp'|Hp'].
    + rewrite (setOrientation_hit _ _ p) by done.
      rewrite setOrientation_hit by done. simpl.
      assert (p = found) as -> by (apply (NoDup_id_eq prev); congruence).
      by destruct found.
    + by rewrite !(setOrientation_miss _ _ p).
  - unfold handleRotateWord. rewrite E. unfold handleRotateWord. by rewrite E.
Qed.

Lemma handleRotateWord_twice_witness :
  handleRotateWord
    (handleRotateWord [mkPlacedWord (W "CAT") 0 0 across None;
                       mkPlacedWord (W "DOG") 1 1 down None] "CAT") "CAT"
  = [mkPlacedWord (W "CAT") 0 0 across None; mkPlacedWord (W "DOG") 1 1 down None].
Proof.
  apply handleRotateWord_twice. simpl.
  apply NoDup_cons. split; [|apply NoDup_singleton].
  intros H%list_elem_of_singleton. discriminate H.
Defined.

(** * The hover preview and the popup of the grid component *)

(** X11. The preview covers exactly the cells that the hovered word would
    occupy from the hover position, and the letter shown in such a cell is
    the letter of the word that would be written there. *)
Theorem isPhantom_covers (hover : Z * Z) (o : Orientation) (w : string) (r c : Z) :
  isPhantom hover o w r c = true <->
  exists i, (i < String.length w)%nat /\
            (hover.1 + Z.of_nat i * dr o, hover.2 + Z.of_nat i * dc o) = (r, c) /\
            phantomIndex hover o r c = Z.of_nat i.
Proof.
  unfold isPhantom, phantomIndex, wlen, dr, dc. destruct hover as [hr hc]. simpl.
  rewrite !andb_true_iff, Z.leb_le, Z.ltb_lt. destruct o; simpl.
  - rewrite bool_decide_eq_true. split.
    + intros [[-> H0] Hl]. exists (Z.to_nat (c - hc)). split_and!; [lia|f_equal; lia|lia].
    + intros (i & Hi & [= <- <-] & _). lia.
  - rewrite bool_decide_eq_true. split.
    + intros [[-> H0] Hl]. exists (Z.to_nat (r - hr)). split_and!; [lia|f_equal; lia|lia].
    + intros (i & Hi & [= <- <-] & _). lia.
Qed.





(** * Re-linking the placements to a new word list *)

Lemma find_word_clue (placedWords : list PlacedWord) (nw : WordData) (e : PlacedWord) :
  List.find (fun pw : PlacedWord =>
               bool_decide (word pw = word nw) && bool_decide (clue pw = clue nw))
            placedWords = Some e ->
  e ∈ placedWords /\ word e = word nw /\ clue e = clue nw.
Proof.
  intros H. apply find_some in H as [Hin H]. apply andb_true_iff in H as [H1 H2].
  apply bool_decide_eq_true in H1, H2. split; [by apply list_elem_of_In|done].
Qed.

Lemma remapPlacedWords_ids (placedWords : list PlacedWord) (newWords : list WordData) :
  sublist ((fun q : PlacedWord => id q) <$> remapPlacedWords placedWords newWords)
          (id <$> newWords).
Proof.
  unfold remapPlacedWords. induction newWords as [|nw nws IH]; [constructor|].
  simpl. destruct (List.find _ placedWords) as [e|]; simpl.
  - by apply sublist_skip.
  - by apply sublist_cons.
Qed.

(** X13. Every re-linked placement carries the identity, word and clue of
    a new word and sits where an old placement with that word and clue
    sat; the identities come in the order of the new words; and every new
    word whose word and clue some old placement has gets a placement. *)
Theorem remapPlacedWords_links (placedWords : list PlacedWord) (newWords : list WordData) :
  (forall q : PlacedWord, q ∈ remapPlacedWords placedWords newWords ->
     exists (nw : WordData) (e : PlacedWord),
       nw ∈ newWords /\ e ∈ placedWords /\
       id q = id nw /\ word q = word nw /\ clue q = clue nw /\
       word e = word nw /\ clue e = clue nw /\
       row q = row e /\ col q = col e /\ orientation q = orientation e /\
       number q = number e) /\
  sublist ((fun q : PlacedWord => id q) <$> remapPlacedWords placedWords newWords)
          (id <$> newWords) /\
  (forall (nw : WordData) (e : PlacedWord),
     nw ∈ newWords -> e ∈ placedWords -> word e = word nw -> clue e = clue nw ->
     exists q : PlacedWord,
       q ∈ remapPlacedWords placedWords newWords /\ id q = id nw /\
       word q = word nw /\ clue q = clue nw).
Proof.
  split_and!.
  - intros q Hq. unfold remapPlacedWords in Hq.
    apply list_elem_of_omap in Hq as (nw & Hnw & Hq).
    destruct (List.find _ placedWords) as [e|] eqn:E; [|done]. injection Hq as <-.
    destruct (find_word_clue _ _ _ E) as (He & Hw & Hc). exists nw, e. simpl. by split_and!.
  - apply remapPlacedWords_ids.
  - intros nw e Hnw He Hw Hc.
    destruct (List.find (fun pw : PlacedWord =>
                bool_decide (word pw = word nw) && bool_decide (clue pw = clue nw))
                placedWords) as [e'|] eqn:E.
    + destruct (find_word_clue _ _ _ E) as (_ & Hw' & Hc').
      exists (mkPlacedWord (mkWordData (id nw) (word e') (clue e'))
                           (row e') (col e') (orientation e') (number e')).
      split; [|by simpl].
      unfold remapPlacedWords. apply list_elem_of_omap. exists nw. split; [done|].
      by rewrite E.
    + apply list_elem_of_In in He. apply (find_none _ _ E) in He.
      by rewrite Hw, Hc, !bool_decide_eq_true_2 in He.
Qed.

(** * Further properties of the auto-layout validator *)

Lemma canPlace_true gm rows cols w row col o :
  canPlace gm rows cols w row col o = true <->
  0 <= row /\ 0 <= col /\
  (o = across -> col + wlen w <= cols) /\ (o = down -> row + wlen w <= rows) /\
  (forall i ch, letterAt w i = Some ch -> letterOk gm row col o (i, ch) = true) /\
  isOccupied gm (row - dr o) (col - dc o) = false /\
  isOccupied gm (row + wlen w * dr o) (col + wlen w * dc o) = false.
Proof.
  unfold canPlace.
  destruct ((row <? 0) || (col <? 0)) eqn:H0.
  { split; [done|]. intros (? & ? & _).
    apply orb_true_iff in H0 as [H0|H0]; apply Z.ltb_lt in H0; lia. }
  apply orb_false_iff in H0 as [Hr Hc]. apply Z.ltb_ge in Hr, Hc.
  destruct (bool_decide (o = across) && (col + wlen w >? cols)) eqn:H1.
  { split; [done|]. intros (_ & _ & H & _).
    apply andb_true_iff in H1 as [Ho H1]. apply bool_decide_eq_true in Ho.
    apply Z.gtb_lt in H1. specialize (H Ho). lia. }
  destruct (bool_decide (o = down) && (row + wlen w >? rows)) eqn:H2.
  { split; [done|]. intros (_ & _ & _ & H & _).
    apply andb_true_iff in H2 as [Ho H2]. apply bool_decide_eq_true in Ho.
    apply Z.gtb_lt in H2. specialize (H Ho). lia. }
  assert (o = across -> col + wlen w <= cols) as Ha.
  { intros Ho. rewrite bool_decide_eq_true_2 in H1 by done. simpl in H1.
    rewrite Z.gtb_ltb in H1. apply Z.ltb_ge in H1. lia. }
  assert (o = down -> row + wlen w <= rows) as Hd.
  { intros Ho. rewrite bool_decide_eq_true_2 in H2 by done. simpl in H2.
    rewrite Z.gtb_ltb in H2. apply Z.ltb_ge in H2. lia. }
  destruct (forallb (letterOk gm row col o) (letters w)) eqn:Hall; simpl.
  - rewrite forallb_forall in Hall.
    assert (forall i ch, letterAt w i = Some ch -> letterOk gm row col o (i, ch) = true) as Hl.
    { intros i ch Hi. apply Hall, list_elem_of_In, elem_of_letters, Hi. }
    destruct (isOccupied gm (row - dr o) (col - dc o)) eqn:E1.
    { split; [done|]. by intros (_ & _ & _ & _ & _ & ? & _). }
    destruct (isOccupied gm (row + wlen w * dr o) (col + wlen w * dc o)) eqn:E2.
    { split; [done|]. by intros (_ & _ & _ & _ & _ & _ & ?). }
    split; [|done]. intros _. by split_and!.
  - split; [done|]. intros (_ & _ & _ & _ & Hl & _).
    assert (forallb (letterOk gm row col o) (letters w) = true); [|congruence].
    apply forallb_forall. intros [i ch] Hic. apply Hl.
    by apply elem_of_letters, list_elem_of_In.
Qed.

Lemma letterOk_compatible gm row col o i ch :
  letterOk gm row col o (i, ch) = true ->
  gm !! (row + Z.of_nat i * dr o, col + Z.of_nat i * dc o) = None \/
  gm !! (row + Z.of_nat i * dr o, col + Z.of_nat i * dc o) = Some ch.
Proof.
  unfold letterOk, getChar. cbn [fst snd].
  destruct (gm !! _) as [e|]; [|by left]. intros ->%bool_decide_eq_true. by right.
Qed.

(** X14. Where [canPlace] accepts, the word starts at non-negative
    coordinates and ends within the grid along its orientation; every
    cell under a letter is empty or holds that letter; a cell that is
    empty has no occupied neighbour across the word; and the cells just
    before the first letter and just after the last are empty. *)
Theorem canPlace_guarantees (gm : GridMap) (rows cols : Z) (w : string) (row col : Z)
    (o : Orientation) :
  canPlace gm rows cols w row col o = true ->
  0 <= row /\ 0 <= col /\
  (o = across -> col + wlen w <= cols) /\ (o = down -> row + wlen w <= rows) /\
  (forall i ch, letterAt w i = Some ch ->
     let r := row + Z.of_nat i * dr o in
     let c := col + Z.of_nat i * dc o in
     (gm !! (r, c) = None \/ gm !! (r, c) = Some ch) /\
     (gm !! (r, c) = None ->
      isOccupied gm (r + dc o) (c + dr o) = false /\
      isOccupied gm (r - dc o) (c - dr o) = false)) /\
  isOccupied gm (row - dr o) (col - dc o) = false /\
  isOccupied gm (row + wlen w * dr o) (col + wlen w * dc o) = false.
Proof.
  intros H. apply canPlace_true in H as (Hr & Hc & Ha & Hd & Hl & E1 & E2).
  split_and!; [done..| |done|done].
  intros i ch Hi. cbn zeta. specialize (Hl i ch Hi). split.
  - by apply letterOk_compatible.
  - intros Hnone. unfold letterOk, getChar in Hl. cbn [fst snd] in Hl.
    rewrite Hnone in Hl. unfold adjacencyOk in Hl.
    destruct (isOccupied gm _ _ || isOccupied gm _ _) eqn:E in Hl; [done|].
    by apply orb_false_iff in E.
Qed.

Lemma canPlace_guarantees_witness :
  0 <= 6 /\ 0 <= 9 /\
  (down = across -> 9 + wlen "STATE" <= 15) /\ (down = down -> 6 + wlen "STATE" <= 15) /\
  (forall i ch, letterAt "STATE" i = Some ch ->
     let r := 6 + Z.of_nat i * dr down in
     let c := 9 + Z.of_nat i * dc down in
     (gridMap st_react !! (r, c) = None \/ gridMap st_react !! (r, c) = Some ch) /\
     (gridMap st_react !! (r, c) = None ->
      isOccupied (gridMap st_react) (r + dc down) (c + dr down) = false /\
      isOccupied (gridMap st_react) (r - dc down) (c - dr down) = false)) /\
  isOccupied (gridMap st_react) (6 - dr down) (9 - dc down) = false /\
  isOccupied (gridMap st_react) (6 + wlen "STATE" * dr down) (9 + wlen "STATE" * dc down) = false.
Proof.
  apply (canPlace_guarantees (gridMap st_react) 15 15 "STATE" 6 9 down). reflexivity.
Defined.

Lemma isOccupied_empty r c : isOccupied ∅ r c = false.
Proof. unfold isOccupied. by rewrite lookup_empty. Qed.

(** X15. On an empty map [canPlace] accepts exactly the placements that
    start at non-negative coordinates and end within the grid along their
    orientation; the other coordinate has no upper bound. *)
Theorem canPlace_empty_map (rows cols : Z) (w : string) (row col : Z) (o : Orientation) :
  canPlace ∅ rows cols w row col o = true <->
  0 <= row /\ 0 <= col /\
  (o = across -> col + wlen w <= cols) /\ (o = down -> row + wlen w <= rows).
Proof.
  rewrite canPlace_true. split; [tauto|].
  intros (? & ? & ? & ?). split_and!; [done..| |apply isOccupied_empty|apply isOccupied_empty].
  intros i ch _. unfold letterOk, getChar. cbn [fst snd]. rewrite lookup_empty.
  unfold adjacencyOk. by rewrite !isOccupied_empty.
Qed.

(** * The map of the layout *)

Lemma insertLetters_lookup (pw : PlacedWord) (l : list (nat * ascii)) (gm : GridMap) rc :
  foldl (fun (gm : GridMap) (ic : nat * ascii) => <[cellOf pw ic.1 := ic.2]> gm) gm l !! rc =
  match last (List.filter (fun ic : nat * ascii => bool_decide (cellOf pw ic.1 = rc)) l) with
  | Some ic => Some ic.2
  | None => gm !! rc
  end.
Proof.
  induction l as [|ic l IH] using rev_ind; [done|].
  rewrite foldl_app, List.filter_app. simpl. rewrite lookup_insert.
  case_decide as E.
  - rewrite bool_decide_eq_true_2 by done. by rewrite last_snoc.
  - rewrite bool_decide_eq_false_2 by done. by rewrite app_nil_r.
Qed.

Lemma placeWordInMap_lookup st (pw : PlacedWord) rc :
  (forall ch, assigns pw rc ch -> gridMap (placeWordInMap st pw) !! rc = Some ch) /\
  ((forall ch, ~ assigns pw rc ch) -> gridMap (placeWordInMap st pw) !! rc = gridMap st !! rc).
Proof.
  unfold placeWordInMap. cbn [gridMap].
  change (foldl _ (gridMap st) (letters (word pw)))
    with (foldl (fun (gm : GridMap) (ic : nat * ascii) => <[cellOf pw ic.1 := ic.2]> gm)
                (gridMap st) (letters (word pw))).
  rewrite insertLetters_lookup.
  destruct (last _) as [[i ch']|] eqn:Hlast.
  - apply last_Some_elem_of, list_elem_of_In, filter_In in Hlast as [Hin Hc].
    apply list_elem_of_In, elem_of_letters in Hin. apply bool_decide_eq_true in Hc.
    assert (assigns pw rc ch') as Ha by (by exists i).
    split.
    + intros ch Hch. simpl. f_equal. by eapply assigns_functional.
    + intros Hno. by destruct (Hno ch').
  - apply last_None in Hlast. split; [|done].
    intros ch (i & Hi & Hc).
    assert ((i, ch) ∈ List.filter (fun ic : nat * ascii => bool_decide (cellOf pw ic.1 = rc))
                                  (letters (word pw))) as Hin.
    { apply list_elem_of_In, filter_In. split; [by apply list_elem_of_In, elem_of_letters|].
      by apply bool_decide_eq_true. }
    rewrite Hlast in Hin. by apply elem_of_nil in Hin.
Qed.

(** X16. After [placeWordInMap], the map holds under every letter of the
    word that letter, every other cell holds what it held, and the word
    is the last of the placed list. *)
Theorem placeWordInMap_map (st : LayoutState) (pw : PlacedWord) (rc : Z * Z) :
  (forall ch, assigns pw rc ch -> gridMap (placeWordInMap st pw) !! rc = Some ch) /\
  ((forall ch, ~ assigns pw rc ch) -> gridMap (placeWordInMap st pw) !! rc = gridMap st !! rc) /\
  placed (placeWordInMap st pw) = placed st ++ [pw].
Proof.
  destruct (placeWordInMap_lookup st pw rc) as [H1 H2]. by split_and!.
Qed.

(** * Further properties of the layout *)

Lemma placeWordInMap_cases st (pw : PlacedWord) rc :
  (exists ch, assigns pw rc ch /\ gridMap (placeWordInMap st pw) !! rc = Some ch) \/
  ((forall ch, ~ assigns pw rc ch) /\ gridMap (placeWordInMap st pw) !! rc = gridMap st !! rc).
Proof.
  destruct (placeWordInMap_lookup st pw rc) as [Hhit Hmiss].
  destruct (last (List.filter (fun ic : nat * ascii => bool_decide (cellOf pw ic.1 = rc))
                              (letters (word pw)))) as [[i ch]|] eqn:Hlast.
  - apply last_Some_elem_of, list_elem_of_In, filter_In in Hlast as [Hin Hc].
    apply list_elem_of_In, elem_of_letters in Hin. apply bool_decide_eq_true in Hc.
    left. exists ch. assert (assigns pw rc ch) by (by exists i). split; [done|by apply Hhit].
  - apply last_None in Hlast. right.
    assert (forall ch, ~ assigns pw rc ch) as Hno.
    { intros ch (i & Hi & Hc).
      assert ((i, ch) ∈ List.filter (fun ic : nat * ascii => bool_decide (cellOf pw ic.1 = rc))
                                    (letters (word pw))) as Hin.
      { apply list_elem_of_In, filter_In. split; [by apply list_elem_of_In, elem_of_letters|].
        by apply bool_decide_eq_true. }
      rewrite Hlast in Hin. by apply elem_of_nil in Hin. }
    split; [done|by apply Hmiss].
Qed.

Lemma consistent_commit st (p : PlacedWord) :
  consistent st ->
  (forall i ch, letterAt (word p) i = Some ch ->
     gridMap st !! cellOf p i = None \/ gridMap st !! cellOf p i = Some ch) ->
  consistent (placeWordInMap st p).
Proof.
  intros Hst Hp q rc ch Hq Ha.
  rewrite placed_placeWordInMap in Hq.
  destruct (placeWordInMap_cases st p rc) as [(ch' & Ha' & Hlook)|[Hno Hlook]].
  - rewrite Hlook. f_equal.
    apply elem_of_app in Hq as [Hq|Hq%list_elem_of_singleton].
    + specialize (Hst q rc ch Hq Ha).
      destruct Ha' as (i & Hi & Hc).
      destruct (Hp i ch' Hi) as [H|H]; rewrite Hc in H; congruence.
    + subst q. by eapply assigns_functional.
  - rewrite Hlook.
    apply elem_of_app in Hq as [Hq|Hq%list_elem_of_singleton]; [by eapply Hst|].
    subst q. by destruct (Hno ch).
Qed.

Lemma findPlacement_compatible rows cols st w p :
  findPlacement rows cols st w = Some p ->
  canPlace (gridMap st) rows cols (word p) (row p) (col p) (orientation p) = true /\
  data p = w /\
  exists (pw : PlacedWord) j k ch,
    pw ∈ placed st /\ letterAt (word w) j = Some ch /\ letterAt (word pw) k = Some ch /\
    p = toPlacement w (crossingAt pw j k).
Proof.
  intros H. apply findPlacement_Some in H as (c & Hc & Hacc & ->).
  split; [done|]. split; [done|].
  apply elem_of_candidates in Hc as (pw & j & k & ch & Hpw & Hj & Hk & ->).
  by exists pw, j, k, ch.
Qed.

Lemma findPlacement_consistent rows cols st w p :
  consistent st -> findPlacement rows cols st w = Some p -> consistent (placeWordInMap st p).
Proof.
  intros Hst Hf. apply consistent_commit; [done|].
  apply findPlacement_compatible in Hf as (Hcp & _).
  apply canPlace_true in Hcp as (_ & _ & _ & _ & Hl & _).
  intros i ch Hi. by apply letterOk_compatible, Hl.
Qed.

Lemma consistent_anchor rows cols firstWord :
  consistent (placeWordInMap emptyLayout (anchor rows cols firstWord)).
Proof.
  apply consistent_commit.
  - intros p rc ch Hp. by apply elem_of_nil in Hp.
  - intros i ch _. left. apply lookup_empty.
Qed.

Lemma consistent_functional st (p q : PlacedWord) rc a b :
  consistent st -> p ∈ placed st -> q ∈ placed st ->
  assigns p rc a -> assigns q rc b -> a = b.
Proof.
  intros Hst Hp Hq Ha Hb.
  pose proof (Hst p rc a Hp Ha). pose proof (Hst q rc b Hq Hb). congruence.
Qed.

(** X17. The placements of a layout never disagree on a cell: two
    placements that cover one cell assign it the same letter; so no cell
    of a board derived from the layout, for any dimensions, has its
    collision flag set. *)
Theorem generateLayout_no_collision (words : list WordData) (rows cols : Z) :
  exists res,
    generateLayout words rows cols = Some res /\
    (forall (p q : PlacedWord) rc a b,
       p ∈ res -> q ∈ res -> assigns p rc a -> assigns q rc b -> a = b) /\
    (forall rows' cols' r c cell,
       getCell (grid (boardOf res rows' cols')) r c = Some cell -> isError cell = false).
Proof.
  assert (exists res,
    generateLayout words rows cols = Some res /\
    forall (p q : PlacedWord) rc a b,
      p ∈ res -> q ∈ res -> assigns p rc a -> assigns q rc b -> a = b) as (res & Hrun & Hfun).
  { destruct (sortWords words) as [|firstWord unplaced] eqn:E.
    - exists []. split; [unfold generateLayout, generateLayoutFuel; by rewrite E|].
      intros p q rc a b Hp. by apply elem_of_nil in Hp.
    - destruct (generateLayout_run _ rows cols _ _ E)
        as (st' & added & rem & Hloop & Hrun & Hpl & _).
      eexists. split; [exact Hrun|]. rewrite <- Hpl.
      apply (retryLoop_invariant rows cols consistent (findPlacement_consistent rows cols))
        in Hloop; [|apply consistent_anchor].
      intros p q rc a b. by apply consistent_functional. }
  exists res. split_and!; [done..|].
  intros rows' cols' r c cell Hcell.
  destruct (boardOf_cell _ _ _ _ _ _ Hcell) as [_ Hstrip].
  change (isError (stripNumber cell) = false). rewrite Hstrip. cbn [stripNumber isError].
  apply not_true_is_false. rewrite cellAfter_isError.
  intros (x & y & Hx & Hy & Hne).
  apply elem_of_cellWrites in Hx as (_ & p & Hp & Hx).
  apply elem_of_cellWrites in Hy as (_ & q & Hq & Hy).
  apply Hne. by eapply (Hfun p q).
Qed.

Lemma extentInGrid_crossing rows cols gm (w : WordData) (pw : PlacedWord) j k ch :
  extentInGrid rows cols (word pw) (row pw) (col pw) (orientation pw) ->
  letterAt (word pw) k = Some ch ->
  accepts gm rows cols w (crossingAt pw j k) = true ->
  extentInGrid rows cols (word w) (crossingAt pw j k).1.1 (crossingAt pw j k).1.2
               (crossingAt pw j k).2.
Proof.
  intros Hpw Hk Hacc. unfold accepts in Hacc.
  apply canPlace_true in Hacc as (Hr & Hc & Ha & Hd & _).
  specialize (Hpw k (letterAt_lt _ _ _ Hk)).
  unfold crossingAt in *. cbn [fst snd] in *.
  intros i Hi. unfold inGrid, wlen, flip, dr, dc in *.
  rewrite !andb_true_iff, !Z.leb_le, !Z.ltb_lt in *.
  destruct (orientation pw); simpl in *.
  - specialize (Hd eq_refl). lia.
  - specialize (Ha eq_refl). lia.
Qed.

Lemma extentInGrid_anchor rows cols (firstWord : WordData) :
  0 < rows -> wlen (word firstWord) <= cols ->
  extentInGrid rows cols (word firstWord) (row (anchor rows cols firstWord))
               (col (anchor rows cols firstWord)) (orientation (anchor rows cols firstWord)).
Proof.
  intros Hrows Hfit. unfold anchor.
  destruct (0 <=? (cols - wlen (word firstWord)) / 2) eqn:Hfc.
  - apply Z.leb_le in Hfc. intros i Hi. simpl.
    unfold inGrid, wlen, dr, dc in *. simpl.
    rewrite !andb_true_iff, !Z.leb_le, !Z.ltb_lt.
    pose proof (Z.div_pos rows 2). pose proof (Z.div_lt rows 2).
    pose proof (Z.mul_div_le (cols - Z.of_nat (String.length (word firstWord))) 2).
    lia.
  - apply Z.leb_gt in Hfc. exfalso.
    pose proof (Z.div_pos (cols - wlen (word firstWord)) 2). lia.
Qed.

(** X18. On a grid with at least one row and at least as many columns as
    the longest word has letters, every placement of the layout lies
    within the grid. *)
Theorem generateLayout_within_grid (words : list WordData) (rows cols : Z) :
  0 < rows ->
  (forall w : WordData, w ∈ words -> wlen (word w) <= cols) ->
  exists res,
    generateLayout words rows cols = Some res /\
    forall p : PlacedWord, p ∈ res ->
      extentInGrid rows cols (word p) (row p) (col p) (orientation p).
Proof.
  intros Hrows Hfit.
  destruct (sortWords words) as [|firstWord unplaced] eqn:E.
  - exists []. split; [unfold generateLayout, generateLayoutFuel; by rewrite E|].
    intros p Hp. by apply elem_of_nil in Hp.
  - destruct (generateLayout_run _ rows cols _ _ E)
      as (st' & added & rem & Hloop & Hrun & Hpl & _).
    eexists. split; [exact Hrun|]. rewrite <- Hpl.
    set (Inv := fun st : LayoutState =>
                  forall p : PlacedWord, p ∈ placed st ->
                    extentInGrid rows cols (word p) (row p) (col p) (orientation p)).
    assert (forall st w p, Inv st -> findPlacement rows cols st w = Some p ->
                           Inv (placeWordInMap st p)) as Hcommit.
    { intros st w p Hst Hf q Hq. rewrite placed_placeWordInMap in Hq.
      apply elem_of_app in Hq as [Hq|Hq%list_elem_of_singleton]; [by apply Hst|]. subst q.
      apply findPlacement_Some in Hf as (c & Hc & Hacc & ->).
      apply elem_of_candidates in Hc as (pw & j & k & ch & Hpw & Hj & Hk & ->).
      apply (extentInGrid_crossing rows cols (gridMap st) w pw j k ch); [by apply Hst|done..]. }
    apply (retryLoop_invariant rows cols Inv Hcommit) in Hloop; [exact Hloop|].
    intros p Hp. rewrite placed_placeWordInMap in Hp.
    apply list_elem_of_singleton in Hp as ->.
    assert (data (anchor rows cols firstWord) = firstWord) as Hd
      by (unfold anchor; by case_match).
    rewrite Hd. apply extentInGrid_anchor; [done|].
    apply Hfit. by apply (sortWords_head_longest _ _ _ E).
Qed.

Lemma generateLayout_within_grid_witness :
  exists res,
    generateLayout [W "REACT"; W "STATE"] 15 15 = Some res /\
    forall p : PlacedWord, p ∈ res ->
      extentInGrid 15 15 (word p) (row p) (col p) (orientation p).
Proof.
  apply generateLayout_within_grid; [lia|].
  intros w [->|[->|H]%elem_of_cons]%elem_of_cons; [by compute..|].
  by apply elem_of_nil in H.
Defined.

(** ** The layout stops only when nothing more can be placed *)

Lemma scanUnplaced_unchanged rows cols unplaced : forall st st' rem,
  scanUnplaced rows cols st unplaced = (st', rem, false) ->
  forall w, w ∈ unplaced -> findPlacement rows cols st w = None.
Proof.
  induction unplaced as [|w0 rest IH]; intros st st' rem; simpl.
  - intros _ w Hw. by apply elem_of_nil in Hw.
  - destruct (findPlacement rows cols st w0) as [p|] eqn:E.
    + by destruct (scanUnplaced rows cols (placeWordInMap st p) rest) as [[? ?] ?].
    + destruct (scanUnplaced rows cols st rest) as [[st1 rem1] ch1] eqn:E1.
      intros [= <- <- ->] w [->|Hw]%elem_of_cons; [done|]. by eapply IH.
Qed.

Lemma retryLoop_final rows cols fuel : forall st unplaced changed,
  (length unplaced <= fuel)%nat ->
  (changed = true \/ forall w, w ∈ unplaced -> findPlacement rows cols st w = None) ->
  exists st' added rem,
    retryLoop fuel rows cols st unplaced changed = Some st' /\
    placed st' = placed st ++ added /\
    (data <$> added) ++ rem ≡ₚ unplaced /\
    forall w, w ∈ rem -> findPlacement rows cols st' w = None.
Proof.
  induction fuel as [|fuel IH]; intros st unplaced changed Hlen Hch; simpl;
    destruct (changed && bool_decide (0 < length unplaced)%nat) eqn:Hc.
  - apply andb_true_iff in Hc as [_ Hc]. apply bool_decide_eq_true in Hc. lia.
  - destruct unplaced; [|simpl in Hlen; lia].
    exists st, [], []. rewrite app_nil_r. split_and!; [done..|].
    intros w Hw. by apply elem_of_nil in Hw.
  - destruct (scanUnplaced rows cols st unplaced) as [[st1 rem1] ch1] eqn:E1.
    destruct (scanUnplaced_lists _ _ _ _ _ _ _ E1) as (added1 & Hpl1 & Hperm1 & Hch1).
    assert (exists st' added rem,
      retryLoop fuel rows cols st1 rem1 ch1 = Some st' /\
      placed st' = placed st1 ++ added /\ (data <$> added) ++ rem ≡ₚ rem1 /\
      forall w, w ∈ rem -> findPlacement rows cols st' w = None)
      as (st' & added & rem & Hrun & Hpl & Hperm & Hnone).
    { destruct ch1.
      - apply IH; [lia|by left].
      - destruct Hch1 as [-> ->].
        exists st, [], unplaced. rewrite app_nil_r. split_and!; [by destruct fuel|done..|].
        by eapply scanUnplaced_unchanged. }
    exists st', (added1 ++ added), rem. split_and!; [done| | |done].
    + by rewrite Hpl, Hpl1, app_assoc.
    + by rewrite fmap_app, <- app_assoc, Hperm.
  - exists st, [], unplaced. rewrite app_nil_r. split_and!; [done..|].
    apply andb_false_iff in Hc as [->|Hc].
    + by destruct Hch.
    + apply bool_decide_eq_false in Hc. destruct unplaced; [|simpl in Hc; lia].
      intros w Hw. by apply elem_of_nil in Hw.
Qed.

Lemma replay_snoc ps p : replay (ps ++ [p]) = placeWordInMap (replay ps) p.
Proof. unfold replay. by rewrite foldl_app. Qed.

Lemma findPlacement_replay rows cols st w p :
  st = replay (placed st) -> findPlacement rows cols st w = Some p ->
  placeWordInMap st p = replay (placed (placeWordInMap st p)).
Proof.
  intros Hst _. rewrite placed_placeWordInMap, replay_snoc. by rewrite <- Hst.
Qed.

(** X19. When the layout returns, every input word is either placed or
    left over, and no left-over word has a crossing with the placed words
    that the validator accepts on the final map: the layout stops only
    when nothing more can be placed. *)
Theorem generateLayout_maximal (words : list WordData) (rows cols : Z) :
  exists res rem,
    generateLayout words rows cols = Some res /\
    (data <$> res) ++ rem ≡ₚ words /\
    forall w, w ∈ rem ->
      findPlacement rows cols (replay res) w = None /\
      forall c, c ∈ candidates (replay res) w ->
                canPlace (gridMap (replay res)) rows cols (word w) c.1.1 c.1.2 c.2 = false.
Proof.
  destruct (sortWords words) as [|firstWord unplaced] eqn:E.
  - exists [], []. pose proof (sortWords_length words) as Hl. rewrite E in Hl.
    destruct words; [|done]. split_and!; [done..|]. intros w Hw. by apply elem_of_nil in Hw.
  - pose proof (sortWords_length words) as Hl. rewrite E in Hl. simpl in Hl.
    destruct (retryLoop_final rows cols (length words)
                (placeWordInMap emptyLayout (anchor rows cols firstWord)) unplaced true)
      as (st' & added & rem & Hloop & Hpl & Hperm & Hnone); [lia|by left|].
    assert (st' = replay (placed st')) as Hst.
    { apply (retryLoop_invariant rows cols (fun st => st = replay (placed st))
               (findPlacement_replay rows cols) _ _ _ _ _) in Hloop; [exact Hloop|done]. }
    exists (placed st'), rem. split_and!.
    + unfold generateLayout. by rewrite (generateLayoutFuel_anchor _ _ _ _ _ _ E), Hloop.
    + rewrite Hpl, placed_placeWordInMap. simpl.
      replace (data (anchor rows cols firstWord)) with firstWord
        by (unfold anchor; by case_match).
      by rewrite <- (sortWords_perm words), E, Hperm.
    + intros w Hw. rewrite <- Hst. specialize (Hnone w Hw). split; [done|].
      by apply findPlacement_None.
Qed.

(** * The two validators together *)

Lemma boardOf_letter ps rows cols r c cell ch :
  getCell (grid (boardOf ps rows cols)) r c = Some cell -> char cell = Some ch ->
  exists p : PlacedWord, p ∈ ps /\ assigns p (r, c) ch.
Proof.
  intros Hcell Hchar. destruct (boardOf_cell _ _ _ _ _ _ Hcell) as [_ Hstrip].
  assert (char (stripNumber cell) = Some ch) as H by done.
  rewrite Hstrip in H. cbn [stripNumber char] in H. rewrite cellAfter_char in H.
  apply fmap_Some in H as ([wid ch'] & Hlast & ->).
  apply last_Some_elem_of, elem_of_cellWrites_pair in Hlast as (_ & p & Hp & _ & Ha).
  by exists p.
Qed.

(** X20. The auto-layout validator is the stricter one: a placement that
    [canPlace] accepts on a map that agrees with the placed words, and
    whose row (for an across word) or column (for a down word) is inside
    the grid, is accepted by [validatePlacement] on the board derived
    from those words. *)
Theorem canPlace_implies_validatePlacement (st : LayoutState) (rows cols : Z) (w : string)
    (row col : Z) (o : Orientation) :
  consistent st ->
  canPlace (gridMap st) rows cols w row col o = true ->
  (o = across -> row < rows) -> (o = down -> col < cols) ->
  validatePlacement (grid (boardOf (placed st) rows cols)) w row col o rows cols = Some true.
Proof.
  intros Hst Hcp Hrow Hcol.
  apply canPlace_true in Hcp as (Hr & Hc & Ha & Hd & Hl & _).
  assert (row + (wlen w - 1) * dr o < rows /\ col + (wlen w - 1) * dc o < cols) as [Hr' Hc'].
  { unfold dr, dc. destruct o; simpl.
    - specialize (Ha eq_refl). specialize (Hrow eq_refl). lia.
    - specialize (Hd eq_refl). specialize (Hcol eq_refl). lia. }
  apply validatePlacement_true. split_and!; [done..|].
  intros i ch Hi.
  destruct (boardOf_cell_exists (placed st) rows cols _ _
              (bounds_extent rows cols w row col o i Hr Hc Hr' Hc' (letterAt_lt _ _ _ Hi)))
    as [cell Hcell].
  exists cell. split; [done|].
  destruct (char cell) as [e|] eqn:Hchar; [right|by left].
  destruct (boardOf_letter _ _ _ _ _ _ _ Hcell Hchar) as (p & Hp & Hassign).
  specialize (Hst p _ e Hp Hassign).
  destruct (letterOk_compatible _ _ _ _ _ _ (Hl i ch Hi)) as [H|H]; congruence.
Qed.

Lemma canPlace_implies_validatePlacement_witness :
  validatePlacement (grid (boardOf (placed st_react) 15 15)) "STATE" 6 9 down 15 15 = Some true.
Proof.
  apply canPlace_implies_validatePlacement.
  - apply consistent_anchor.
  - reflexivity.
  - discriminate.
  - intros _. lia.
Defined.

(** X21. Where the input words have distinct identities, so have the
    placements of the layout. *)
Theorem generateLayout_distinct_ids (words : list WordData) (rows cols : Z) :
  NoDup (id <$> words) ->
  exists res,
    generateLayout words rows cols = Some res /\
    NoDup ((fun p : PlacedWord => id p) <$> res).
Proof.
  intros Hnd.
  destruct (sortWords words) as [|firstWord unplaced] eqn:E.
  - exists []. split; [unfold generateLayout, generateLayoutFuel; by rewrite E|]. constructor.
  - destruct (generateLayout_run _ rows cols _ _ E) as (st' & added & rem & _ & Hrun & _ & Hperm).
    eexists. split; [exact Hrun|].
    assert ((data <$> (anchor rows cols firstWord :: added)) ++ rem ≡ₚ words) as Hp.
    { rewrite fmap_cons. simpl.
      replace (data (anchor rows cols firstWord)) with firstWord
        by (unfold anchor; by case_match).
      by rewrite <- (sortWords_perm words), E, Hperm. }
    rewrite <- Hp, fmap_app in Hnd. apply NoDup_app in Hnd as [Hnd _].
    by rewrite <- list_fmap_compose in Hnd.
Qed.

Lemma generateLayout_distinct_ids_witness :
  exists res,
    generateLayout [W "REACT"; W "STATE"] 15 15 = Some res /\
    NoDup ((fun p : PlacedWord => id p) <$> res).
Proof.
  apply generateLayout_distinct_ids. simpl.
  apply NoDup_cons. split; [|apply NoDup_singleton].
  intros H%list_elem_of_singleton. discriminate H.
Defined.
